(** * contributors.py: counting unique contributors across repositories

    A shallow embedding of [src/contributors.py] and the properties of
    its three functions: [since_datetime], [find_recent_contributors]
    and [main].

    Modelling conventions.
    - A Python [str] is the [string] of its UTF-8 encoding; the order
      of the code points is then the lexicographic order on the bytes
      ([String.compare]), and [str.lower] is modelled on the code
      points, with the case tables of Unicode.
    - A Python [dict] is an association list in insertion order: a
      store to an existing key replaces the value in place, a store to
      a new key appends the entry.
    - Exceptions are values of [exn]; a computation that may raise
      returns a [result].
    - Calls to the logger and to [print] are recorded, in order, in a
      trace of [event]s that every effectful function returns next to
      its result.
    - The remote API client is a value of type [Github]: a snapshot of
      what the hosting platform answers, the same for a path each time
      it is asked.  What the loop of [main] does when a name listed
      twice is answered differently is stated on [aggregate], which
      takes the mappings as they come. *)

From Stdlib Require Import List String Ascii NArith ZArith Lia Bool Arith.
From Stdlib Require Import Sorted Permutation.
Import ListNotations.

Local Open Scope string_scope.
Local Open Scope list_scope.

(** ** Python dictionaries keyed by strings *)

Module Dict.

Definition dict (V : Type) : Type := list (string * V).

Section Ops.
Context {V : Type}.

Definition empty : dict V := [].

(** [d.get(k)]: the value stored under [k], if any. *)
Fixpoint get (k : string) (d : dict V) : option V :=
  match d with
  | [] => None
  | (k', v) :: d' => if String.eqb k k' then Some v else get k d'
  end.

(** [k in d] *)
Definition mem (k : string) (d : dict V) : bool :=
  match get k d with Some _ => true | None => false end.

(** [d[k] = v]: overwrite in place when [k] is a key, append otherwise. *)
Fixpoint set (k : string) (v : V) (d : dict V) : dict V :=
  match d with
  | [] => [(k, v)]
  | (k', v') :: d' =>
      if String.eqb k k' then (k', v) :: d' else (k', v') :: set k v d'
  end.

(** [d.items()], [d.keys()], [len(d)] *)
Definition items (d : dict V) : list (string * V) := d.
Definition keys (d : dict V) : list string := map fst d.
Definition len (d : dict V) : nat := List.length d.

(** [d.update(other)]: store every entry of [other], in its order. *)
Definition update (d other : dict V) : dict V :=
  fold_left (fun acc kv => set (fst kv) (snd kv) acc) (items other) d.

(** [dict(pairs)] *)
Definition of_list (pairs : list (string * V)) : dict V :=
  fold_left (fun acc kv => set (fst kv) (snd kv) acc) pairs empty.

(** [bool(d)]: a dictionary is truthy when it is not empty. *)
Definition truthy (d : dict V) : bool :=
  match d with [] => false | _ :: _ => true end.

End Ops.

(** [(k, v) in d.items()]: an items view holds the pair when [k] is a
    key and the value stored under it equals [v]. *)
Definition items_contains (kv : string * string) (d : dict string) : bool :=
  match get (fst kv) d with
  | Some v' => String.eqb v' (snd kv)
  | None => false
  end.

End Dict.

Import Dict.

(** ** Strings *)

(** *** [str.lower()]

    A [string] holds the UTF-8 encoding of a Python [str].
    Lowercasing works on its code points, as CPython does: every code
    point is replaced by its lowercase mapping, and a capital sigma
    becomes a final sigma when a cased letter comes before it and none
    comes after it, case-ignorable code points aside. *)

Definition byte (n : N) : ascii := ascii_of_N n.

(** A byte outside a well-formed sequence is kept as it is: it is
    decoded to a number beyond the code points and encoded back. *)
Definition RAW : N := 1114112.

Definition continuation (b : ascii) : bool :=
  let n := N_of_ascii b in ((128 <=? n) && (n <? 192))%N.

Fixpoint utf8_decode (s : string) : list N :=
  match s with
  | EmptyString => []
  | String b0 s1 =>
      let n0 := N_of_ascii b0 in
      let raw := (RAW + n0)%N :: utf8_decode s1 in
      if (n0 <? 128)%N then n0 :: utf8_decode s1
      else
        match s1 with
        | String b1 s2 =>
            let n1 := N_of_ascii b1 in
            if ((194 <=? n0) && (n0 <? 224))%N then
              if continuation b1
              then ((n0 - 192) * 64 + (n1 - 128))%N :: utf8_decode s2
              else raw
            else
              match s2 with
              | String b2 s3 =>
                  let n2 := N_of_ascii b2 in
                  if ((224 <=? n0) && (n0 <? 240))%N then
                    let c := ((n0 - 224) * 4096 + (n1 - 128) * 64
                              + (n2 - 128))%N in
                    if continuation b1 && continuation b2
                       && (2048 <=? c)%N
                       && negb ((55296 <=? c) && (c <? 57344))%N
                    then c :: utf8_decode s3
                    else raw
                  else
                    match s3 with
                    | String b3 s4 =>
                        let n3 := N_of_ascii b3 in
                        let c := ((n0 - 240) * 262144 + (n1 - 128) * 4096
                                  + (n2 - 128) * 64 + (n3 - 128))%N in
                        if ((240 <=? n0) && (n0 <? 245))%N
                           && continuation b1 && continuation b2
                           && continuation b3
                           && ((65536 <=? c) && (c <? RAW))%N
                        then c :: utf8_decode s4
                        else raw
                    | EmptyString => raw
                    end
              | EmptyString => raw
              end
        | EmptyString => raw
        end
  end.

Definition utf8_encode_point (c : N) : string :=
  if (c <? 128)%N then String (byte c) EmptyString
  else if (c <? 2048)%N then
    String (byte (192 + c / 64)) (String (byte (128 + c mod 64)) EmptyString)
  else if (c <? 65536)%N then
    String (byte (224 + c / 4096))
      (String (byte (128 + (c / 64) mod 64))
         (String (byte (128 + c mod 64)) EmptyString))
  else if (c <? RAW)%N then
    String (byte (240 + c / 262144))
      (String (byte (128 + (c / 4096) mod 64))
         (String (byte (128 + (c / 64) mod 64))
            (String (byte (128 + c mod 64)) EmptyString)))
  else String (byte (c - RAW)) EmptyString.

Fixpoint utf8_encode (cs : list N) : string :=
  match cs with
  | [] => EmptyString
  | c :: cs' => (utf8_encode_point c ++ utf8_encode cs')%string
  end.

(** The simple lowercase mappings of Unicode 14.0 (the table of CPython
    3.11), as runs: every [step]-th code point from [first] to [last]
    maps to the code point as far from [target] as it is from [first]. *)
Definition lowercase_table : list (N * N * N * N) :=
  [(65, 90, 1, 97); (192, 214, 1, 224); (216, 222, 1, 248);
   (256, 302, 2, 257); (306, 310, 2, 307); (313, 327, 2, 314);
   (330, 374, 2, 331); (376, 376, 1, 255); (377, 381, 2, 378);
   (385, 385, 1, 595); (386, 388, 2, 387); (390, 390, 1, 596);
   (391, 391, 1, 392); (393, 394, 1, 598); (395, 395, 1, 396);
   (398, 398, 1, 477); (399, 399, 1, 601); (400, 400, 1, 603);
   (401, 401, 1, 402); (403, 403, 1, 608); (404, 404, 1, 611);
   (406, 406, 1, 617); (407, 407, 1, 616); (408, 408, 1, 409);
   (412, 412, 1, 623); (413, 413, 1, 626); (415, 415, 1, 629);
   (416, 420, 2, 417); (422, 422, 1, 640); (423, 423, 1, 424);
   (425, 425, 1, 643); (428, 428, 1, 429); (430, 430, 1, 648);
   (431, 431, 1, 432); (433, 434, 1, 650); (435, 437, 2, 436);
   (439, 439, 1, 658); (440, 440, 1, 441); (444, 444, 1, 445);
   (452, 452, 1, 454); (453, 453, 1, 454); (455, 455, 1, 457);
   (456, 456, 1, 457); (458, 458, 1, 460); (459, 475, 2, 460);
   (478, 494, 2, 479); (497, 497, 1, 499); (498, 500, 2, 499);
   (502, 502, 1, 405); (503, 503, 1, 447); (504, 542, 2, 505);
   (544, 544, 1, 414); (546, 562, 2, 547); (570, 570, 1, 11365);
   (571, 571, 1, 572); (573, 573, 1, 410); (574, 574, 1, 11366);
   (577, 577, 1, 578); (579, 579, 1, 384); (580, 580, 1, 649);
   (581, 581, 1, 652); (582, 590, 2, 583); (880, 882, 2, 881);
   (886, 886, 1, 887); (895, 895, 1, 1011); (902, 902, 1, 940);
   (904, 906, 1, 941); (908, 908, 1, 972); (910, 911, 1, 973);
   (913, 929, 1, 945); (931, 939, 1, 963); (975, 975, 1, 983);
   (984, 1006, 2, 985); (1012, 1012, 1, 952); (1015, 1015, 1, 1016);
   (1017, 1017, 1, 1010); (1018, 1018, 1, 1019); (1021, 1023, 1, 891);
   (1024, 1039, 1, 1104); (1040, 1071, 1, 1072); (1120, 1152, 2, 1121);
   (1162, 1214, 2, 1163); (1216, 1216, 1, 1231); (1217, 1229, 2, 1218);
   (1232, 1326, 2, 1233); (1329, 1366, 1, 1377); (4256, 4293, 1, 11520);
   (4295, 4295, 1, 11559); (4301, 4301, 1, 11565); (5024, 5103, 1, 43888);
   (5104, 5109, 1, 5112); (7312, 7354, 1, 4304); (7357, 7359, 1, 4349);
   (7680, 7828, 2, 7681); (7838, 7838, 1, 223); (7840, 7934, 2, 7841);
   (7944, 7951, 1, 7936); (7960, 7965, 1, 7952); (7976, 7983, 1, 7968);
   (7992, 7999, 1, 7984); (8008, 8013, 1, 8000); (8025, 8031, 2, 8017);
   (8040, 8047, 1, 8032); (8072, 8079, 1, 8064); (8088, 8095, 1, 8080);
   (8104, 8111, 1, 8096); (8120, 8121, 1, 8112); (8122, 8123, 1, 8048);
   (8124, 8124, 1, 8115); (8136, 8139, 1, 8050); (8140, 8140, 1, 8131);
   (8152, 8153, 1, 8144); (8154, 8155, 1, 8054); (8168, 8169, 1, 8160);
   (8170, 8171, 1, 8058); (8172, 8172, 1, 8165); (8184, 8185, 1, 8056);
   (8186, 8187, 1, 8060); (8188, 8188, 1, 8179); (8486, 8486, 1, 969);
   (8490, 8490, 1, 107); (8491, 8491, 1, 229); (8498, 8498, 1, 8526);
   (8544, 8559, 1, 8560); (8579, 8579, 1, 8580); (9398, 9423, 1, 9424);
   (11264, 11311, 1, 11312); (11360, 11360, 1, 11361);
   (11362, 11362, 1, 619); (11363, 11363, 1, 7549); (11364, 11364, 1, 637);
   (11367, 11371, 2, 11368); (11373, 11373, 1, 593); (11374, 11374, 1, 625);
   (11375, 11375, 1, 592); (11376, 11376, 1, 594); (11378, 11378, 1, 11379);
   (11381, 11381, 1, 11382); (11390, 11391, 1, 575);
   (11392, 11490, 2, 11393); (11499, 11501, 2, 11500);
   (11506, 11506, 1, 11507); (42560, 42604, 2, 42561);
   (42624, 42650, 2, 42625); (42786, 42798, 2, 42787);
   (42802, 42862, 2, 42803); (42873, 42875, 2, 42874);
   (42877, 42877, 1, 7545); (42878, 42886, 2, 42879);
   (42891, 42891, 1, 42892); (42893, 42893, 1, 613);
   (42896, 42898, 2, 42897); (42902, 42920, 2, 42903);
   (42922, 42922, 1, 614); (42923, 42923, 1, 604); (42924, 42924, 1, 609);
   (42925, 42925, 1, 620); (42926, 42926, 1, 618); (42928, 42928, 1, 670);
   (42929, 42929, 1, 647); (42930, 42930, 1, 669); (42931, 42931, 1, 43859);
   (42932, 42946, 2, 42933); (42948, 42948, 1, 42900);
   (42949, 42949, 1, 642); (42950, 42950, 1, 7566);
   (42951, 42953, 2, 42952); (42960, 42960, 1, 42961);
   (42966, 42968, 2, 42967); (42997, 42997, 1, 42998);
   (65313, 65338, 1, 65345); (66560, 66599, 1, 66600);
   (66736, 66771, 1, 66776); (66928, 66964, 2, 66967);
   (66929, 66937, 2, 66968); (66941, 66953, 2, 66980);
   (66957, 66961, 2, 66996); (66965, 66965, 1, 67004);
   (68736, 68786, 1, 68800); (71840, 71871, 1, 71872);
   (93760, 93791, 1, 93792); (125184, 125217, 1, 125218)]%N.

(** The ranges of the code points with the property Cased. *)
Definition cased_table : list (N * N) :=
  [(65, 90); (97, 122); (170, 170); (181, 181); (186, 186); (192, 214);
   (216, 246); (248, 442); (444, 447); (452, 659); (661, 696); (704, 705);
   (736, 740); (837, 837); (880, 883); (886, 887); (890, 893); (895, 895);
   (902, 902); (904, 906); (908, 908); (910, 929); (931, 1013);
   (1015, 1153); (1162, 1327); (1329, 1366); (1376, 1416); (4256, 4293);
   (4295, 4295); (4301, 4301); (4304, 4346); (4349, 4351); (5024, 5109);
   (5112, 5117); (7296, 7304); (7312, 7354); (7357, 7359); (7424, 7615);
   (7680, 7957); (7960, 7965); (7968, 8005); (8008, 8013); (8016, 8023);
   (8025, 8025); (8027, 8027); (8029, 8029); (8031, 8061); (8064, 8116);
   (8118, 8124); (8126, 8126); (8130, 8132); (8134, 8140); (8144, 8147);
   (8150, 8155); (8160, 8172); (8178, 8180); (8182, 8188); (8305, 8305);
   (8319, 8319); (8336, 8348); (8450, 8450); (8455, 8455); (8458, 8467);
   (8469, 8469); (8473, 8477); (8484, 8484); (8486, 8486); (8488, 8488);
   (8490, 8493); (8495, 8500); (8505, 8505); (8508, 8511); (8517, 8521);
   (8526, 8526); (8544, 8575); (8579, 8580); (9398, 9449); (11264, 11492);
   (11499, 11502); (11506, 11507); (11520, 11557); (11559, 11559);
   (11565, 11565); (42560, 42605); (42624, 42653); (42786, 42887);
   (42891, 42894); (42896, 42954); (42960, 42961); (42963, 42963);
   (42965, 42969); (42997, 42998); (43000, 43002); (43824, 43866);
   (43868, 43880); (43888, 43967); (64256, 64262); (64275, 64279);
   (65313, 65338); (65345, 65370); (66560, 66639); (66736, 66771);
   (66776, 66811); (66928, 66938); (66940, 66954); (66956, 66962);
   (66964, 66965); (66967, 66977); (66979, 66993); (66995, 67001);
   (67003, 67004); (67456, 67456); (67459, 67461); (67463, 67504);
   (67506, 67514); (68736, 68786); (68800, 68850); (71840, 71903);
   (93760, 93823); (119808, 119892); (119894, 119964); (119966, 119967);
   (119970, 119970); (119973, 119974); (119977, 119980); (119982, 119993);
   (119995, 119995); (119997, 120003); (120005, 120069); (120071, 120074);
   (120077, 120084); (120086, 120092); (120094, 120121); (120123, 120126);
   (120128, 120132); (120134, 120134); (120138, 120144); (120146, 120485);
   (120488, 120512); (120514, 120538); (120540, 120570); (120572, 120596);
   (120598, 120628); (120630, 120654); (120656, 120686); (120688, 120712);
   (120714, 120744); (120746, 120770); (120772, 120779); (122624, 122633);
   (122635, 122654); (125184, 125251); (127280, 127305); (127312, 127337);
   (127344, 127369)]%N.

(** The ranges of the code points with the property Case_Ignorable. *)
Definition case_ignorable_table : list (N * N) :=
  [(39, 39); (46, 46); (58, 58); (94, 94); (96, 96); (168, 168); (173, 173);
   (175, 175); (180, 180); (183, 184); (688, 879); (884, 885); (890, 890);
   (900, 901); (903, 903); (1155, 1161); (1369, 1369); (1375, 1375);
   (1425, 1469); (1471, 1471); (1473, 1474); (1476, 1477); (1479, 1479);
   (1524, 1524); (1536, 1541); (1552, 1562); (1564, 1564); (1600, 1600);
   (1611, 1631); (1648, 1648); (1750, 1757); (1759, 1768); (1770, 1773);
   (1807, 1807); (1809, 1809); (1840, 1866); (1958, 1968); (2027, 2037);
   (2042, 2042); (2045, 2045); (2070, 2093); (2137, 2139); (2184, 2184);
   (2192, 2193); (2200, 2207); (2249, 2306); (2362, 2362); (2364, 2364);
   (2369, 2376); (2381, 2381); (2385, 2391); (2402, 2403); (2417, 2417);
   (2433, 2433); (2492, 2492); (2497, 2500); (2509, 2509); (2530, 2531);
   (2558, 2558); (2561, 2562); (2620, 2620); (2625, 2626); (2631, 2632);
   (2635, 2637); (2641, 2641); (2672, 2673); (2677, 2677); (2689, 2690);
   (2748, 2748); (2753, 2757); (2759, 2760); (2765, 2765); (2786, 2787);
   (2810, 2815); (2817, 2817); (2876, 2876); (2879, 2879); (2881, 2884);
   (2893, 2893); (2901, 2902); (2914, 2915); (2946, 2946); (3008, 3008);
   (3021, 3021); (3072, 3072); (3076, 3076); (3132, 3132); (3134, 3136);
   (3142, 3144); (3146, 3149); (3157, 3158); (3170, 3171); (3201, 3201);
   (3260, 3260); (3263, 3263); (3270, 3270); (3276, 3277); (3298, 3299);
   (3328, 3329); (3387, 3388); (3393, 3396); (3405, 3405); (3426, 3427);
   (3457, 3457); (3530, 3530); (3538, 3540); (3542, 3542); (3633, 3633);
   (3636, 3642); (3654, 3662); (3761, 3761); (3764, 3772); (3782, 3782);
   (3784, 3789); (3864, 3865); (3893, 3893); (3895, 3895); (3897, 3897);
   (3953, 3966); (3968, 3972); (3974, 3975); (3981, 3991); (3993, 4028);
   (4038, 4038); (4141, 4144); (4146, 4151); (4153, 4154); (4157, 4158);
   (4184, 4185); (4190, 4192); (4209, 4212); (4226, 4226); (4229, 4230);
   (4237, 4237); (4253, 4253); (4348, 4348); (4957, 4959); (5906, 5908);
   (5938, 5939); (5970, 5971); (6002, 6003); (6068, 6069); (6071, 6077);
   (6086, 6086); (6089, 6099); (6103, 6103); (6109, 6109); (6155, 6159);
   (6211, 6211); (6277, 6278); (6313, 6313); (6432, 6434); (6439, 6440);
   (6450, 6450); (6457, 6459); (6679, 6680); (6683, 6683); (6742, 6742);
   (6744, 6750); (6752, 6752); (6754, 6754); (6757, 6764); (6771, 6780);
   (6783, 6783); (6823, 6823); (6832, 6862); (6912, 6915); (6964, 6964);
   (6966, 6970); (6972, 6972); (6978, 6978); (7019, 7027); (7040, 7041);
   (7074, 7077); (7080, 7081); (7083, 7085); (7142, 7142); (7144, 7145);
   (7149, 7149); (7151, 7153); (7212, 7219); (7222, 7223); (7288, 7293);
   (7376, 7378); (7380, 7392); (7394, 7400); (7405, 7405); (7412, 7412);
   (7416, 7417); (7468, 7530); (7544, 7544); (7579, 7679); (8125, 8125);
   (8127, 8129); (8141, 8143); (8157, 8159); (8173, 8175); (8189, 8190);
   (8203, 8207); (8216, 8217); (8228, 8228); (8231, 8231); (8234, 8238);
   (8288, 8292); (8294, 8303); (8305, 8305); (8319, 8319); (8336, 8348);
   (8400, 8432); (11388, 11389); (11503, 11505); (11631, 11631);
   (11647, 11647); (11744, 11775); (11823, 11823); (12293, 12293);
   (12330, 12333); (12337, 12341); (12347, 12347); (12441, 12446);
   (12540, 12542); (40981, 40981); (42232, 42237); (42508, 42508);
   (42607, 42610); (42612, 42621); (42623, 42623); (42652, 42655);
   (42736, 42737); (42752, 42785); (42864, 42864); (42888, 42890);
   (42994, 42996); (43000, 43001); (43010, 43010); (43014, 43014);
   (43019, 43019); (43045, 43046); (43052, 43052); (43204, 43205);
   (43232, 43249); (43263, 43263); (43302, 43309); (43335, 43345);
   (43392, 43394); (43443, 43443); (43446, 43449); (43452, 43453);
   (43471, 43471); (43493, 43494); (43561, 43566); (43569, 43570);
   (43573, 43574); (43587, 43587); (43596, 43596); (43632, 43632);
   (43644, 43644); (43696, 43696); (43698, 43700); (43703, 43704);
   (43710, 43711); (43713, 43713); (43741, 43741); (43756, 43757);
   (43763, 43764); (43766, 43766); (43867, 43871); (43881, 43883);
   (44005, 44005); (44008, 44008); (44013, 44013); (64286, 64286);
   (64434, 64450); (65024, 65039); (65043, 65043); (65056, 65071);
   (65106, 65106); (65109, 65109); (65279, 65279); (65287, 65287);
   (65294, 65294); (65306, 65306); (65342, 65342); (65344, 65344);
   (65392, 65392); (65438, 65439); (65507, 65507); (65529, 65531);
   (66045, 66045); (66272, 66272); (66422, 66426); (67456, 67461);
   (67463, 67504); (67506, 67514); (68097, 68099); (68101, 68102);
   (68108, 68111); (68152, 68154); (68159, 68159); (68325, 68326);
   (68900, 68903); (69291, 69292); (69446, 69456); (69506, 69509);
   (69633, 69633); (69688, 69702); (69744, 69744); (69747, 69748);
   (69759, 69761); (69811, 69814); (69817, 69818); (69821, 69821);
   (69826, 69826); (69837, 69837); (69888, 69890); (69927, 69931);
   (69933, 69940); (70003, 70003); (70016, 70017); (70070, 70078);
   (70089, 70092); (70095, 70095); (70191, 70193); (70196, 70196);
   (70198, 70199); (70206, 70206); (70367, 70367); (70371, 70378);
   (70400, 70401); (70459, 70460); (70464, 70464); (70502, 70508);
   (70512, 70516); (70712, 70719); (70722, 70724); (70726, 70726);
   (70750, 70750); (70835, 70840); (70842, 70842); (70847, 70848);
   (70850, 70851); (71090, 71093); (71100, 71101); (71103, 71104);
   (71132, 71133); (71219, 71226); (71229, 71229); (71231, 71232);
   (71339, 71339); (71341, 71341); (71344, 71349); (71351, 71351);
   (71453, 71455); (71458, 71461); (71463, 71467); (71727, 71735);
   (71737, 71738); (71995, 71996); (71998, 71998); (72003, 72003);
   (72148, 72151); (72154, 72155); (72160, 72160); (72193, 72202);
   (72243, 72248); (72251, 72254); (72263, 72263); (72273, 72278);
   (72281, 72283); (72330, 72342); (72344, 72345); (72752, 72758);
   (72760, 72765); (72767, 72767); (72850, 72871); (72874, 72880);
   (72882, 72883); (72885, 72886); (73009, 73014); (73018, 73018);
   (73020, 73021); (73023, 73029); (73031, 73031); (73104, 73105);
   (73109, 73109); (73111, 73111); (73459, 73460); (78896, 78904);
   (92912, 92916); (92976, 92982); (92992, 92995); (94031, 94031);
   (94095, 94111); (94176, 94177); (94179, 94180); (110576, 110579);
   (110581, 110587); (110589, 110590); (113821, 113822); (113824, 113827);
   (118528, 118573); (118576, 118598); (119143, 119145); (119155, 119170);
   (119173, 119179); (119210, 119213); (119362, 119364); (121344, 121398);
   (121403, 121452); (121461, 121461); (121476, 121476); (121499, 121503);
   (121505, 121519); (122880, 122886); (122888, 122904); (122907, 122913);
   (122915, 122916); (122918, 122922); (123184, 123197); (123566, 123566);
   (123628, 123631); (125136, 125142); (125252, 125259); (127995, 127999);
   (917505, 917505); (917536, 917631); (917760, 917999)]%N.

Fixpoint in_ranges (c : N) (ranges : list (N * N)) : bool :=
  match ranges with
  | [] => false
  | (first, last) :: ranges' =>
      if (c <? first)%N then false
      else if (c <=? last)%N then true
      else in_ranges c ranges'
  end.

Fixpoint mapped (c : N) (runs : list (N * N * N * N)) : N :=
  match runs with
  | [] => c
  | (first, last, step, target) :: runs' =>
      if (c <? first)%N then c
      else if ((c <=? last) && ((c - first) mod step =? 0))%N
      then (target + (c - first))%N
      else mapped c runs'
  end.

Definition cased (c : N) : bool := in_ranges c cased_table.
Definition case_ignorable (c : N) : bool := in_ranges c case_ignorable_table.

(** The lowercase of one code point: its simple mapping, but for the
    capital I with a dot above, which gives an i and a combining dot. *)
Definition to_lower_full (c : N) : list N :=
  if (c =? 304)%N then [105; 775]%N else [mapped c lowercase_table].

(** Whether a cased letter follows, case-ignorable code points aside. *)
Fixpoint cased_follows (cs : list N) : bool :=
  match cs with
  | [] => false
  | c :: cs' => if case_ignorable c then cased_follows cs' else cased c
  end.

(** [before] tells whether the nearest code point to the left that is
    not case-ignorable is cased. *)
Fixpoint lower_points (before : bool) (cs : list N) : list N :=
  match cs with
  | [] => []
  | c :: cs' =>
      (if (c =? 931)%N
       then [if before && negb (cased_follows cs') then 962 else 963]%N
       else to_lower_full c)
      ++ lower_points (if case_ignorable c then before else cased c) cs'
  end.

Definition lower (s : string) : string :=
  utf8_encode (lower_points false (utf8_decode s)).

Arguments lower : simpl never.

(** [s.split(sep)] for a one-character separator. *)
Fixpoint split (sep : ascii) (s : string) : list string :=
  match s with
  | EmptyString => [EmptyString]
  | String c s' =>
      match split sep s' with
      | [] => [String c EmptyString]
      | field :: fields =>
          if Ascii.eqb c sep then EmptyString :: field :: fields
          else String c field :: fields
      end
  end.

(** ** Exceptions, results and the trace of effects *)

Inductive exn : Type :=
  | GithubException (data : string)
  | SystemExit (code : option Z)
  | OverflowError
  | OtherError (name : string).

Inductive result (A : Type) : Type :=
  | Ok (a : A)
  | Raise (e : exn).
Arguments Ok {A} a.
Arguments Raise {A} e.

Inductive level : Type := DEBUG | INFO | WARNING | ERROR.

Definition level_no (l : level) : nat :=
  match l with DEBUG => 10 | INFO => 20 | WARNING => 30 | ERROR => 40 end.

(** The format strings of the logger calls, with their arguments. *)
Inductive message : Type :=
  | AnalyzingCommits (full_name : string)
  | FoundTotalCommits (total : nat)
  | SkippingEmpty
  | FoundAuthor (author_name author_email : string)
  | DuplicateFound (author_name author_email : string)
  | NoRepositories
  | CouldNotFind (org repo : string)
  | ErrorObject (error : exn).

(** What [json.dumps(repo_stats)] serialises: the three keys of
    [repo_stats], in the order they were stored. *)
Record report : Type := {
  repositories : dict nat;
  contributors : dict string;
  num_unique_contributors : nat
}.

Inductive event : Type :=
  | Log (l : level) (m : message)
  | Print (r : report).

(** A computation: the events it performed and how it ended. *)
Definition M (A : Type) : Type := list event * result A.

Definition ret {A} (a : A) : M A := ([], Ok a).
Definition raise {A} (e : exn) : M A := ([], Raise e).
Definition lift {A} (r : result A) : M A := ([], r).
Definition log (l : level) (m : message) : M unit := ([Log l m], Ok tt).
Definition print (r : report) : M unit := ([Print r], Ok tt).

Definition bind {A B} (m : M A) (f : A -> M B) : M B :=
  match m with
  | (t, Ok a) => let (t', r) := f a in (t ++ t', r)
  | (t, Raise e) => (t, Raise e)
  end.

Notation "x <- m ;; k" := (bind m (fun x => k))
  (at level 61, m at next level, right associativity).
Notation "m ;;; k" := (bind m (fun _ => k))
  (at level 61, right associativity).

(** What reaches standard output, and what the logger lets through
    once [logzero.loglevel] has set its threshold. *)
Definition stdout (t : list event) : list report :=
  flat_map (fun e => match e with Print r => [r] | Log _ _ => [] end) t.

Definition debug_level (debug : bool) : level :=
  if debug then DEBUG else ERROR.

Definition emitted (threshold : level) (t : list event) : list message :=
  flat_map (fun e =>
    match e with
    | Log l m => if (level_no threshold <=? level_no l)%nat then [m] else []
    | Print _ => []
    end) t.

(** ** Timestamps *)

(** A [datetime] is a point of the proleptic Gregorian time line,
    counted in microseconds from 0001-01-01T00:00:00, with an optional
    UTC offset ([tzinfo]); it is naive when [tzinfo] is [None].  A
    [timedelta] is a number of microseconds. *)
Record datetime : Type := {
  micros : Z;
  tzinfo : option Z
}.

Definition DAY : Z := 24 * 60 * 60 * 1000000.

(** [datetime.min] is 0001-01-01T00:00:00 and [datetime.max] is
    9999-12-31T23:59:59.999999, the last microsecond of day 3652059. *)
Definition MAX_MICROS : Z := 3652059 * DAY - 1.

Definition in_range (t : Z) : Prop := (0 <= t <= MAX_MICROS)%Z.

(** [timedelta(days=days)]: at most 999999999 days either way. *)
Definition timedelta (days : Z) : result Z :=
  if (Z.abs days <=? 999999999)%Z then Ok (days * DAY)%Z
  else Raise OverflowError.

(** [datetime.today()]: the reading of the local clock, naive. *)
Definition today (now : Z) : datetime :=
  {| micros := now; tzinfo := None |}.

(** [d - delta]: the offset is kept; leaving the range raises. *)
Definition datetime_sub (d : datetime) (delta : Z) : result datetime :=
  let t := (micros d - delta)%Z in
  if ((0 <=? t) && (t <=? MAX_MICROS))%Z
  then Ok {| micros := t; tzinfo := tzinfo d |}
  else Raise OverflowError.

(** The ISO 8601 text of a timestamp, by its fields: the date and
    time down to the second, the six-digit fraction that is written
    only when the microseconds are not zero, and the offset suffix
    that is written only when the timestamp is not naive. *)
Record iso8601 : Type := {
  iso_seconds : Z;
  iso_fraction : option Z;
  iso_offset : option Z
}.

Definition isoformat (d : datetime) : iso8601 :=
  {| iso_seconds := micros d / 1000000;
     iso_fraction :=
       if (micros d mod 1000000 =? 0)%Z then None
       else Some (micros d mod 1000000)%Z;
     iso_offset := tzinfo d |}.

Definition fromisoformat (s : iso8601) : datetime :=
  {| micros :=
       iso_seconds s * 1000000 +
       match iso_fraction s with Some f => f | None => 0 end;
     tzinfo := iso_offset s |}.

Definition ORG_NAME : string := "bradleyfrank".
Definition DAYS_AGO : Z := 90.

(** [since_datetime(days)], with [now] the clock reading it takes. *)
Definition since_datetime (now : Z) (days : Z) : result datetime :=
  match timedelta days with
  | Raise e => Raise e
  | Ok delta =>
      match datetime_sub (today now) delta with
      | Raise e => Raise e
      | Ok past_date => Ok (fromisoformat (isoformat past_date))
      end
  end.

(** ** The remote API client *)

(** A commit, as far as the program reads it: evaluating
    [commit.commit.author.name] and [commit.commit.author.email]
    yields a string or raises. *)
Record commit : Type := {
  author_name : result string;
  author_email : result string
}.

(** The listing returned by [get_commits]: probing [totalCount] yields
    a number or raises; iterating yields the commits. *)
Record PaginatedList : Type := {
  totalCount : result nat;
  elements : list commit
}.

Record Repository : Type := {
  full_name : string;
  get_commits : datetime -> PaginatedList
}.

(** The client: what [get_repo] answers for a path, a repository or
    an exception. *)
Record Github : Type := {
  get_repo : string -> result Repository
}.

(** ** [find_recent_contributors] *)

(** The body of [for commit in commits], on the commits left. *)
Fixpoint collect (commits : list commit) (authors : dict string)
  : M (dict string) :=
  match commits with
  | [] => ret authors
  | commit :: rest =>
      name <- lift (author_name commit) ;;
      let author_name := lower name in
      author_email <- lift (author_email commit) ;;
      log DEBUG (FoundAuthor author_name author_email) ;;;
      authors' <-
        (if negb (items_contains (author_email, author_name) authors)
         then ret (Dict.set author_email author_name authors)
         else log WARNING (DuplicateFound author_name author_email) ;;;
              ret authors) ;;
      collect rest authors'
  end.

Definition find_recent_contributors (repository : Repository)
  (since : datetime) : M (dict string) :=
  log INFO (AnalyzingCommits (full_name repository)) ;;;
  let authors : dict string := Dict.empty in
  let commits := get_commits repository since in
  match totalCount commits with
  | Ok total =>
      log DEBUG (FoundTotalCommits total) ;;;
      collect (elements commits) authors
  | Raise (GithubException _) =>
      log WARNING SkippingEmpty ;;;
      ret authors
  | Raise e => raise e
  end.

(** ** [main] *)

(** Tuples of strings compare lexicographically: [a < b]. *)
Definition pair_ltb (a b : string * string) : bool :=
  match String.compare (fst a) (fst b) with
  | Lt => true
  | Eq => String.ltb (snd a) (snd b)
  | Gt => false
  end.

(** [sorted]: a stable sort that only asks [<]. *)
Fixpoint insert (x : string * string) (l : list (string * string))
  : list (string * string) :=
  match l with
  | [] => [x]
  | y :: l' => if pair_ltb x y then x :: l else y :: insert x l'
  end.

Definition sorted (l : list (string * string)) : list (string * string) :=
  fold_left (fun acc x => insert x acc) l [].

(** The state of the loop over the repository names:
    [repo_stats["repositories"]] and [all_contributors]. *)
Definition loop_state : Type := (dict nat * dict string)%type.

Fixpoint main_loop (github : Github) (org : string) (past_date : datetime)
  (names : list string) (st : loop_state) : M loop_state :=
  match names with
  | [] => ret st
  | repo :: rest =>
      match get_repo github (org ++ "/" ++ repo)%string with
      | Raise (GithubException data) =>
          log ERROR (CouldNotFind org repo) ;;;
          log ERROR (ErrorObject (GithubException data)) ;;;
          main_loop github org past_date rest st
      | Raise e => raise e
      | Ok github_repository =>
          contributors <- find_recent_contributors github_repository past_date ;;
          main_loop github org past_date rest
            (Dict.set repo (Dict.len contributors) (fst st),
             Dict.update (snd st) contributors)
      end
  end.

Definition main (github : Github) (now : Z)
  (org : string) (repos : option string) (debug : bool) : M unit :=
  past_date <- lift (since_datetime now DAYS_AGO) ;;
  match repos with
  | None =>
      log ERROR NoRepositories ;;;
      raise (SystemExit None)
  | Some repos =>
      st <- main_loop github org past_date (split "," repos)
              (Dict.empty, Dict.empty) ;;
      if Dict.truthy (fst st) then
        let contributors := Dict.of_list (sorted (Dict.items (snd st))) in
        print {| repositories := fst st;
                 contributors := contributors;
                 num_unique_contributors := Dict.len contributors |}
      else ret tt
  end.

(** The status with which the interpreter ends the process: 0 after a
    normal return and after [sys.exit()] without an argument, the
    given code after [sys.exit(code)], 1 after an uncaught exception. *)
Definition exit_status {A} (r : result A) : Z :=
  match r with
  | Ok _ => 0
  | Raise (SystemExit None) => 0
  | Raise (SystemExit (Some code)) => code
  | Raise _ => 1
  end.

(** ** Auxiliary definitions used in the statements *)

(** A commit whose author fields read without error, from the pair
    (email, name). *)
Definition commit_of (p : string * string) : commit :=
  {| author_name := Ok (snd p); author_email := Ok (fst p) |}.

(** What one iteration of the loop does to the mapping when the commit
    reads as the pair [p]. *)
Definition store (authors : dict string) (p : string * string) : dict string :=
  if negb (items_contains (fst p, lower (snd p)) authors)
  then Dict.set (fst p) (lower (snd p)) authors
  else authors.

(** The naive collector: the same function with the membership test
    removed, every commit assigning [authors[author_email] = author_name]. *)
Fixpoint collect_naive (commits : list commit) (authors : dict string)
  : M (dict string) :=
  match commits with
  | [] => ret authors
  | commit :: rest =>
      name <- lift (author_name commit) ;;
      let author_name := lower name in
      author_email <- lift (author_email commit) ;;
      log DEBUG (FoundAuthor author_name author_email) ;;;
      collect_naive rest (Dict.set author_email author_name authors)
  end.

Definition find_recent_contributors_naive (repository : Repository)
  (since : datetime) : M (dict string) :=
  log INFO (AnalyzingCommits (full_name repository)) ;;;
  let authors : dict string := Dict.empty in
  let commits := get_commits repository since in
  match totalCount commits with
  | Ok total =>
      log DEBUG (FoundTotalCommits total) ;;;
      collect_naive (elements commits) authors
  | Raise (GithubException _) =>
      log WARNING SkippingEmpty ;;;
      ret authors
  | Raise e => raise e
  end.

(** A trace without its duplicate warnings. *)
Definition is_duplicate_warning (e : event) : bool :=
  match e with
  | Log WARNING (DuplicateFound _ _) => true
  | _ => false
  end.

Definition without_duplicate_warnings (t : list event) : list event :=
  filter (fun e => negb (is_duplicate_warning e)) t.

(** The first error met when reading a commit's author: the name is
    read first, then the email. *)
Definition read_error (c : commit) : option exn :=
  match author_name c with
  | Raise e => Some e
  | Ok _ => match author_email c with Raise e => Some e | Ok _ => None end
  end.

(** The strict order on strings. *)
Definition string_lt (a b : string) : Prop := String.compare a b = Lt.

(** The order on the entries that [sorted] sees when the keys differ. *)
Definition key_lt (p q : string * string) : Prop :=
  string_lt (fst p) (fst q).

(** The sum of the counts of a [repositories] map. *)
Definition sum_counts (d : dict nat) : nat :=
  fold_right (fun kv acc => snd kv + acc) 0 (Dict.items d).

(** The name under which [main] asks for a repository. *)
Definition repo_path (org repo : string) : string :=
  (org ++ "/" ++ repo)%string.

(** What the loop of [main] does with one repository once its mapping
    is known: record its count, merge its entries. *)
Definition absorb (st : loop_state) (rd : string * dict string) : loop_state :=
  (Dict.set (fst rd) (Dict.len (snd rd)) (fst st),
   Dict.update (snd st) (snd rd)).

(** The repositories the loop gets through, in order, each with the
    mapping the collector returned for it; a lookup that raises
    [GithubException] skips the name, any other exception ends the
    loop. *)
Fixpoint processed (github : Github) (org : string) (past_date : datetime)
  (names : list string) : result (list (string * dict string)) :=
  match names with
  | [] => Ok []
  | repo :: rest =>
      match get_repo github (org ++ "/" ++ repo)%string with
      | Raise (GithubException _) => processed github org past_date rest
      | Raise e => Raise e
      | Ok github_repository =>
          match snd (find_recent_contributors github_repository past_date) with
          | Raise e => Raise e
          | Ok contributors =>
              match processed github org past_date rest with
              | Raise e => Raise e
              | Ok done => Ok ((repo, contributors) :: done)
              end
          end
      end
  end.

(** The report [main] prints from the final state of its loop. *)
Definition report_of (st : loop_state) : report :=
  let contributors := Dict.of_list (sorted (Dict.items (snd st))) in
  {| repositories := fst st;
     contributors := contributors;
     num_unique_contributors := Dict.len contributors |}.

(** The state of the loop after the repositories [done], from the
    initial empty state. *)
Definition aggregate (done : list (string * dict string)) : loop_state :=
  fold_left absorb done (Dict.empty, Dict.empty).

(** Repositories got through by the loop, as the platform answers:
    one name always comes with the same mapping, and a mapping has
    each email once. *)
Definition consistent (done : list (string * dict string)) : Prop :=
  forall r d1 d2, In (r, d1) done -> In (r, d2) done -> d1 = d2.

Definition well_keyed (done : list (string * dict string)) : Prop :=
  forall r d, In (r, d) done -> NoDup (Dict.keys d).

(** An email occurs in the mappings of two different repositories. *)
Definition shared_email (done : list (string * dict string)) : Prop :=
  exists r1 d1 r2 d2 e,
    In (r1, d1) done /\ In (r2, d2) done /\ r1 <> r2 /\
    In e (Dict.keys d1) /\ In e (Dict.keys d2).

(** ** Concrete inputs *)

(** A listing of commits that all read without error, and a repository
    that answers every query with it. *)
Definition listing_of (pairs : list (string * string)) : PaginatedList :=
  {| totalCount := Ok (List.length pairs); elements := map commit_of pairs |}.

Definition repository_of (name : string) (l : PaginatedList) : Repository :=
  {| full_name := name; get_commits := fun _ => l |}.

(** A repository without commits: probing the count raises. *)
Definition empty_listing : PaginatedList :=
  {| totalCount := Raise (GithubException "409 Git Repository is empty.");
     elements := [] |}.

(** A listing that cannot be fetched: probing the count raises an
    exception that is not a [GithubException]. *)
Definition unreachable_listing : PaginatedList :=
  {| totalCount := Raise (OtherError "ConnectionError"); elements := [] |}.

(** A commit whose author name cannot be read. *)
Definition broken_commit : commit :=
  {| author_name := Raise (OtherError "AttributeError");
     author_email := Ok "d@z.com" |}.

(** 2026-11-04T12:00:00, and the same instant 90 days earlier. *)
Definition noon : Z := 63929390400000000.
Definition noon_past : datetime :=
  {| micros := 63921614400000000; tzinfo := None |}.

(** The platform of the aggregation example: [r1] and [r2] exist. *)
Definition two_repositories : Github :=
  {| get_repo := fun path =>
       if String.eqb path "bradleyfrank/r1" then
         Ok (repository_of path (listing_of [("a@x.com", "Bob")]))
       else if String.eqb path "bradleyfrank/r2" then
         Ok (repository_of path
               (listing_of [("a@x.com", "Bob"); ("c@y.com", "Carol")]))
       else Raise (GithubException "404 Not Found") |}.

(** A platform where [r1] is fine and [r2] holds a commit that cannot
    be read. *)
Definition one_broken_repository : Github :=
  {| get_repo := fun path =>
       if String.eqb path "bradleyfrank/r1" then
         Ok (repository_of path (listing_of [("a@x.com", "Bob")]))
       else if String.eqb path "bradleyfrank/r2" then
         Ok (repository_of path
               {| totalCount := Ok 1; elements := [broken_commit] |})
       else Raise (GithubException "404 Not Found") |}.

(** The mappings of the aggregation example, and the mappings given by
    a repository named twice that is empty the second time. *)
Definition two_mappings : list (string * dict string) :=
  [("r1", [("a@x.com", "bob")]);
   ("r2", [("a@x.com", "bob"); ("c@y.com", "carol")])].

Definition repeated_name_mappings : list (string * dict string) :=
  [("r1", [("a@x.com", "bob"); ("c@y.com", "carol")]); ("r1", [])].

(** The report of the aggregation example. *)
Definition two_repositories_report : report :=
  {| repositories := [("r1", 1); ("r2", 2)];
     contributors := [("a@x.com", "bob"); ("c@y.com", "carol")];
     num_unique_contributors := 2 |}.

(** ** Further definitions used in the statements *)

(** The number of duplicate warnings in a trace. *)
Definition duplicate_warnings (t : list event) : nat :=
  List.length (filter is_duplicate_warning t).

(** The two error lines [main] logs for a name whose lookup raises
    [GithubException]; nothing for the other names. *)
Definition lookup_error_messages (github : Github) (org repo : string)
  : list message :=
  match get_repo github (repo_path org repo) with
  | Raise (GithubException data) =>
      [CouldNotFind org repo; ErrorObject (GithubException data)]
  | _ => []
  end.

(** [sep.join(fields)], the inverse of [split]. *)
Fixpoint join (sep : ascii) (fields : list string) : string :=
  match fields with
  | [] => EmptyString
  | field :: rest =>
      match rest with
      | [] => field
      | _ :: _ => (field ++ String sep (join sep rest))%string
      end
  end.

(** [s.count(c)]: how often a character occurs in a string. *)
Fixpoint count_char (c : ascii) (s : string) : nat :=
  match s with
  | EmptyString => 0
  | String c' s' => (if Ascii.eqb c' c then 1 else 0) + count_char c s'
  end.

(** A platform that knows no repository. *)
Definition no_repository : Github :=
  {| get_repo := fun _ => Raise (GithubException "404 Not Found") |}.

(** A platform that cannot be reached. *)
Definition unreachable : Github :=
  {| get_repo := fun _ => Raise (OtherError "ConnectionError") |}.

(** A platform whose only repository, [r1], has no commits. *)
Definition one_empty_repository : Github :=
  {| get_repo := fun path =>
       if String.eqb path "bradleyfrank/r1" then
         Ok (repository_of path empty_listing)
       else Raise (GithubException "404 Not Found") |}.

(** * Properties *)

(** ** The effect monad *)

Lemma bind_snd {A B} (m : M A) (f : A -> M B) :
  snd (bind m f) =
  match snd m with Ok a => snd (f a) | Raise e => Raise e end.
Proof.
  destruct m as [t [a | e]]; simpl; [destruct (f a) |]; reflexivity.
Qed.

Lemma bind_fst {A B} (m : M A) (f : A -> M B) :
  fst (bind m f) =
  fst m ++ match snd m with Ok a => fst (f a) | Raise _ => [] end.
Proof.
  destruct m as [t [a | e]]; simpl; [destruct (f a) | rewrite app_nil_r];
    reflexivity.
Qed.

Lemma bind_lift_ok {A B} (a : A) (f : A -> M B) : bind (lift (Ok a)) f = f a.
Proof. unfold bind, lift. destruct (f a); reflexivity. Qed.

Lemma bind_ret {A B} (a : A) (f : A -> M B) : bind (ret a) f = f a.
Proof. apply bind_lift_ok. Qed.

Lemma bind_lift_raise {A B} (e : exn) (f : A -> M B) :
  bind (lift (Raise e)) f = ([], Raise e).
Proof. reflexivity. Qed.

Lemma bind_log {B} l m (f : unit -> M B) :
  bind (log l m) f = (Log l m :: fst (f tt), snd (f tt)).
Proof. unfold bind, log. destruct (f tt); reflexivity. Qed.

Lemma stdout_app t1 t2 : stdout (t1 ++ t2) = stdout t1 ++ stdout t2.
Proof. apply flat_map_app. Qed.

(** ** Lowercasing *)

(** [lower] on some names: ASCII and accented capitals, a capital
    sigma inside and at the end of a word, the dotted capital I. *)
Lemma lower_examples :
  lower "Bob" = "bob" /\
  lower "Émile Z" = "émile z" /\
  lower "ΟΔΟΣ ΣΑΣ" = "οδος σας" /\
  lower "İ" = "i̇" /\
  lower "straße 9" = "straße 9".
Proof. repeat split; reflexivity. Qed.

(** ** Dictionaries *)

Section DictFacts.
Context {V : Type}.
Implicit Types (d : dict V) (k : string) (v : V).

Lemma get_set_same k v d : Dict.get k (Dict.set k v d) = Some v.
Proof.
  induction d as [| [k' v'] d IH]; simpl.
  - now rewrite String.eqb_refl.
  - destruct (String.eqb k k') eqn:E; simpl; rewrite E; auto.
Qed.

Lemma get_set_other k k' v d :
  k <> k' -> Dict.get k' (Dict.set k v d) = Dict.get k' d.
Proof.
  intros Hne. induction d as [| [k0 v0] d IH]; simpl.
  - destruct (String.eqb_spec k' k); congruence.
  - destruct (String.eqb_spec k k0) as [-> | Hk]; simpl.
    + destruct (String.eqb_spec k' k0); congruence.
    + destruct (String.eqb_spec k' k0); auto.
Qed.

(** Storing the value a key already has changes nothing. *)
Lemma set_same_noop k v d : Dict.get k d = Some v -> Dict.set k v d = d.
Proof.
  induction d as [| [k' v'] d IH]; simpl; [discriminate |].
  destruct (String.eqb_spec k k') as [-> | Hk]; intros H.
  - congruence.
  - now rewrite IH.
Qed.

Lemma get_None_not_key k d : Dict.get k d = None <-> ~ In k (Dict.keys d).
Proof.
  induction d as [| [k' v'] d IH]; simpl.
  - tauto.
  - destruct (String.eqb_spec k k') as [-> | Hk].
    + split; [discriminate | tauto].
    + rewrite IH. split; [intros H [E | I]; congruence || tauto | tauto].
Qed.

Lemma get_Some_key k v d : Dict.get k d = Some v -> In k (Dict.keys d).
Proof.
  intros H. destruct (in_dec string_dec k (Dict.keys d)) as [I | N]; auto.
  apply get_None_not_key in N. congruence.
Qed.

Lemma get_Some_In k v d : Dict.get k d = Some v -> In (k, v) d.
Proof.
  induction d as [| [k' v'] d IH]; simpl; [discriminate |].
  destruct (String.eqb_spec k k') as [-> | Hk]; intros H.
  - left. congruence.
  - right. auto.
Qed.

Lemma In_get_NoDup k v d :
  NoDup (Dict.keys d) -> In (k, v) d -> Dict.get k d = Some v.
Proof.
  induction d as [| [k' v'] d IH]; simpl; [tauto |].
  intros ND [E | I].
  - inversion E; subst. now rewrite String.eqb_refl.
  - inversion ND; subst.
    destruct (String.eqb_spec k k') as [-> | Hk]; auto.
    exfalso. apply H1. change (In (fst (k', v)) (map fst d)).
    now apply in_map.
Qed.

(** A store to a present key keeps the keys and their order; a store
    to a new key appends it. *)
Lemma set_present k v d :
  In k (Dict.keys d) -> Dict.keys (Dict.set k v d) = Dict.keys d.
Proof.
  induction d as [| [k' v'] d IH]; simpl; [tauto |].
  destruct (String.eqb_spec k k') as [-> | Hk]; simpl; intros H.
  - reflexivity.
  - f_equal. apply IH. destruct H; congruence.
Qed.

Lemma set_absent k v d :
  ~ In k (Dict.keys d) -> Dict.set k v d = d ++ [(k, v)].
Proof.
  induction d as [| [k' v'] d IH]; simpl; [reflexivity |].
  destruct (String.eqb_spec k k') as [-> | Hk]; intros H.
  - tauto.
  - f_equal. apply IH. tauto.
Qed.

Lemma keys_set k v d :
  Dict.keys (Dict.set k v d) =
  if Dict.mem k d then Dict.keys d else Dict.keys d ++ [k].
Proof.
  unfold Dict.mem. destruct (Dict.get k d) eqn:G.
  - apply set_present. eapply get_Some_key; eauto.
  - apply get_None_not_key in G. rewrite set_absent by assumption.
    unfold Dict.keys. now rewrite map_app.
Qed.

Lemma In_keys_set k k' v d :
  In k' (Dict.keys (Dict.set k v d)) <-> k' = k \/ In k' (Dict.keys d).
Proof.
  rewrite keys_set. unfold Dict.mem. destruct (Dict.get k d) eqn:G.
  - apply get_Some_key in G. split; [tauto | intros [-> | ?]; auto].
  - rewrite in_app_iff. simpl. split; [intros [? | [? | []]] |]; intuition.
Qed.

Lemma NoDup_keys_set k v d :
  NoDup (Dict.keys d) -> NoDup (Dict.keys (Dict.set k v d)).
Proof.
  intros ND. rewrite keys_set. unfold Dict.mem.
  destruct (Dict.get k d) eqn:G; auto.
  apply get_None_not_key in G.
  apply NoDup_app; auto.
  - repeat constructor. simpl. tauto.
  - intros x Hx [<- | []]. contradiction.
Qed.

Lemma len_set k v d :
  Dict.len (Dict.set k v d) =
  if Dict.mem k d then Dict.len d else S (Dict.len d).
Proof.
  unfold Dict.len. rewrite <- !(length_map fst).
  change (map fst (Dict.set k v d)) with (Dict.keys (Dict.set k v d)).
  rewrite keys_set. destruct (Dict.mem k d); auto.
  rewrite length_app. simpl. unfold Dict.keys. lia.
Qed.

End DictFacts.

(** ** The collector's loop *)

Lemma items_contains_get kv (d : dict string) :
  items_contains kv d = true <-> Dict.get (fst kv) d = Some (snd kv).
Proof.
  unfold items_contains. destruct (Dict.get (fst kv) d) as [v' |].
  - destruct (String.eqb_spec v' (snd kv)); split; congruence.
  - split; discriminate.
Qed.

Lemma items_contains_In kv (d : dict string) :
  NoDup (Dict.keys d) ->
  items_contains kv d = true <-> In kv (Dict.items d).
Proof.
  intros ND. rewrite items_contains_get. destruct kv as [k v]; simpl.
  split; [apply get_Some_In | now apply In_get_NoDup].
Qed.

(** The guarded store and the plain assignment yield the same mapping. *)
Lemma store_assign authors p :
  store authors p = Dict.set (fst p) (lower (snd p)) authors.
Proof.
  unfold store.
  destruct (items_contains (fst p, lower (snd p)) authors) eqn:E; simpl; auto.
  apply items_contains_get in E. simpl in E.
  symmetry. now apply set_same_noop.
Qed.

Lemma store_NoDup authors p :
  NoDup (Dict.keys authors) -> NoDup (Dict.keys (store authors p)).
Proof. rewrite store_assign. apply NoDup_keys_set. Qed.

Lemma fold_store_NoDup pairs authors :
  NoDup (Dict.keys authors) ->
  NoDup (Dict.keys (fold_left store pairs authors)).
Proof.
  revert authors. induction pairs as [| p pairs IH]; simpl; auto.
  intros authors ND. apply IH. now apply store_NoDup.
Qed.

(** One iteration on a commit that reads without error. *)
Lemma collect_cons_ok c rest authors name email :
  author_name c = Ok name -> author_email c = Ok email ->
  collect (c :: rest) authors =
  (Log DEBUG (FoundAuthor (lower name) email) ::
     (if items_contains (email, lower name) authors
      then [Log WARNING (DuplicateFound (lower name) email)] else []) ++
     fst (collect rest (store authors (email, name))),
   snd (collect rest (store authors (email, name)))).
Proof.
  intros Hn He. cbn [collect collect_naive]. rewrite Hn, He, !bind_lift_ok, bind_log.
  unfold store. cbn [fst snd].
  destruct (items_contains (email, lower name) authors); cbn [negb].
  - unfold bind at 1, bind, log, ret.
    destruct (collect rest authors); reflexivity.
  - rewrite bind_ret. reflexivity.
Qed.

Lemma collect_cons_error c rest authors x :
  read_error c = Some x -> collect (c :: rest) authors = ([], Raise x).
Proof.
  unfold read_error. intros H. cbn [collect collect_naive].
  destruct (author_name c) as [name | e].
  - destruct (author_email c) as [email | e]; [discriminate |].
    rewrite bind_lift_ok. inversion H; subst. reflexivity.
  - inversion H; subst. reflexivity.
Qed.

Lemma collect_naive_cons_ok c rest authors name email :
  author_name c = Ok name -> author_email c = Ok email ->
  collect_naive (c :: rest) authors =
  (Log DEBUG (FoundAuthor (lower name) email) ::
     fst (collect_naive rest (Dict.set email (lower name) authors)),
   snd (collect_naive rest (Dict.set email (lower name) authors))).
Proof.
  intros Hn He. cbn [collect collect_naive]. rewrite Hn, He, !bind_lift_ok, bind_log. reflexivity.
Qed.

Lemma collect_naive_cons_error c rest authors x :
  read_error c = Some x -> collect_naive (c :: rest) authors = ([], Raise x).
Proof.
  unfold read_error. intros H. cbn [collect collect_naive].
  destruct (author_name c) as [name | e].
  - destruct (author_email c) as [email | e]; [discriminate |].
    rewrite bind_lift_ok. inversion H; subst. reflexivity.
  - inversion H; subst. reflexivity.
Qed.

Lemma read_error_cases c :
  (exists name email,
      author_name c = Ok name /\ author_email c = Ok email /\
      read_error c = None) \/
  (exists x, read_error c = Some x).
Proof.
  unfold read_error. destruct (author_name c) as [name | e]; eauto.
  destruct (author_email c) as [email | e]; eauto.
  left. eauto.
Qed.

Lemma read_error_commit_of p : read_error (commit_of p) = None.
Proof. reflexivity. Qed.

(** The loop against the naive loop, on any commits: same outcome, and
    the same trace once the duplicate warnings are taken out. *)
Lemma collect_refines_naive commits : forall authors,
  snd (collect commits authors) = snd (collect_naive commits authors) /\
  without_duplicate_warnings (fst (collect commits authors)) =
  fst (collect_naive commits authors).
Proof.
  induction commits as [| c rest IH]; intros authors.
  - split; reflexivity.
  - destruct (read_error_cases c) as [(name & email & Hn & He & _) | [x Hx]].
    + rewrite (collect_cons_ok _ _ _ _ _ Hn He),
        (collect_naive_cons_ok _ _ _ _ _ Hn He).
      rewrite store_assign. simpl fst; simpl snd.
      destruct (IH (Dict.set email (lower name) authors)) as [IH1 IH2].
      split; [exact IH1 |].
      unfold without_duplicate_warnings in *. simpl. f_equal.
      rewrite filter_app, IH2.
      destruct (items_contains (email, lower name) authors); reflexivity.
    + rewrite (collect_cons_error _ _ _ _ Hx),
        (collect_naive_cons_error _ _ _ _ Hx).
      split; reflexivity.
Qed.

(** On commits that all read without error the loop folds [store]. *)
Lemma collect_commit_of pairs : forall authors,
  snd (collect (map commit_of pairs) authors) =
  Ok (fold_left store pairs authors).
Proof.
  induction pairs as [| [e n] pairs IH]; intros authors; simpl map.
  - reflexivity.
  - rewrite (collect_cons_ok _ _ _ n e) by reflexivity.
    simpl snd. apply IH.
Qed.

(** An unreadable commit after readable ones ends the loop there. *)
Lemma collect_raises pre : forall c post authors x,
  (forall c', In c' pre -> read_error c' = None) ->
  read_error c = Some x ->
  snd (collect (pre ++ c :: post) authors) = Raise x.
Proof.
  induction pre as [| c0 pre IH]; intros c post authors x Hpre Hc.
  - simpl app. now rewrite (collect_cons_error _ _ _ _ Hc).
  - destruct (read_error_cases c0) as [(name & email & Hn & He & _) | [y Hy]].
    + simpl app. rewrite (collect_cons_ok _ _ _ _ _ Hn He). simpl snd.
      apply IH; auto. intros c' Hc'. apply Hpre. now right.
    + rewrite Hpre in Hy by now left. discriminate.
Qed.

(** [find_recent_contributors] once the probe has answered. *)
Lemma find_recent_contributors_probed repository since total :
  totalCount (get_commits repository since) = Ok total ->
  find_recent_contributors repository since =
  (Log INFO (AnalyzingCommits (full_name repository)) ::
   Log DEBUG (FoundTotalCommits total) ::
   fst (collect (elements (get_commits repository since)) Dict.empty),
   snd (collect (elements (get_commits repository since)) Dict.empty)).
Proof.
  intros H. unfold find_recent_contributors.
  rewrite bind_log. rewrite H, bind_log. reflexivity.
Qed.

Lemma find_recent_contributors_pairs repository since total pairs :
  totalCount (get_commits repository since) = Ok total ->
  elements (get_commits repository since) = map commit_of pairs ->
  snd (find_recent_contributors repository since) =
  Ok (fold_left store pairs Dict.empty).
Proof.
  intros Ht He. rewrite (find_recent_contributors_probed _ _ _ Ht), He.
  simpl snd. apply collect_commit_of.
Qed.

(** ** The collector *)

Lemma fold_store_app pairs p authors :
  fold_left store (pairs ++ [p]) authors =
  store (fold_left store pairs authors) p.
Proof. now rewrite fold_left_app. Qed.

(** C1. The collector handles the commits in order: the mapping after
    one more commit (email [e], name [n]) is the mapping built from the
    commits before it, with [e] set to the lowercased [n] when the pair
    is not yet an entry (the other keys keep their values), and left as
    it is when the pair is already an entry.  On three commits of one
    email, named Émile, ÉMILE and Bob, the first stores émile, the
    second finds the pair present and only logs the duplicate, the
    third overwrites the name with bob. *)
Theorem find_recent_contributors_step :
  (forall r1 r2 since total1 total2 pairs e n,
     totalCount (get_commits r1 since) = Ok total1 ->
     elements (get_commits r1 since) = map commit_of pairs ->
     totalCount (get_commits r2 since) = Ok total2 ->
     elements (get_commits r2 since) = map commit_of (pairs ++ [(e, n)]) ->
     exists before after,
       snd (find_recent_contributors r1 since) = Ok before /\
       snd (find_recent_contributors r2 since) = Ok after /\
       (pairs = [] -> before = Dict.empty) /\
       (~ In (e, lower n) (Dict.items before) ->
          after = Dict.set e (lower n) before /\
          Dict.get e after = Some (lower n) /\
          forall k, k <> e -> Dict.get k after = Dict.get k before) /\
       (In (e, lower n) (Dict.items before) -> after = before)) /\
  (forall name since,
     find_recent_contributors
       (repository_of name
          (listing_of [("e@x.com", "Émile"); ("e@x.com", "ÉMILE");
                       ("e@x.com", "Bob")])) since =
     ([Log INFO (AnalyzingCommits name);
       Log DEBUG (FoundTotalCommits 3);
       Log DEBUG (FoundAuthor "émile" "e@x.com");
       Log DEBUG (FoundAuthor "émile" "e@x.com");
       Log WARNING (DuplicateFound "émile" "e@x.com");
       Log DEBUG (FoundAuthor "bob" "e@x.com")],
      Ok [("e@x.com", "bob")])).
Proof.
  split; [| reflexivity].
  intros r1 r2 since total1 total2 pairs e n Ht1 He1 Ht2 He2.
  exists (fold_left store pairs Dict.empty),
         (store (fold_left store pairs Dict.empty) (e, n)).
  assert (ND : NoDup (Dict.keys (fold_left store pairs Dict.empty)))
    by (apply fold_store_NoDup; constructor).
  split; [eapply find_recent_contributors_pairs; eauto |].
  split.
  { rewrite <- fold_store_app.
    eapply find_recent_contributors_pairs; eauto. }
  split; [intros ->; reflexivity |].
  generalize dependent (fold_left store pairs Dict.empty).
  intros before ND. unfold store. cbn [fst snd].
  destruct (items_contains (e, lower n) before) eqn:E; cbn [negb].
  - apply (items_contains_In _ _ ND) in E.
    split; [intros HnIn; contradiction | reflexivity].
  - split.
    + intros _. split; [reflexivity |].
      split; [apply get_set_same |].
      intros k Hk. apply get_set_other. congruence.
    + intros HIn. apply (items_contains_In _ _ ND) in HIn. congruence.
Qed.

Lemma find_recent_contributors_step_witness :
  exists before after,
    snd (find_recent_contributors
           (repository_of "o/r" (listing_of [("e@x.com", "é")]))
           noon_past) = Ok before /\
    snd (find_recent_contributors
           (repository_of "o/r"
              (listing_of [("e@x.com", "é"); ("e@x.com", "É")]))
           noon_past) = Ok after /\
    ([("e@x.com", "é")] = [] -> before = Dict.empty) /\
    (~ In ("e@x.com", lower "É") (Dict.items before) ->
       after = Dict.set "e@x.com" (lower "É") before /\
       Dict.get "e@x.com" after = Some (lower "É") /\
       forall k, k <> "e@x.com" -> Dict.get k after = Dict.get k before) /\
    (In ("e@x.com", lower "É") (Dict.items before) -> after = before).
Proof.
  apply (proj1 find_recent_contributors_step
           (repository_of "o/r" (listing_of [("e@x.com", "é")]))
           (repository_of "o/r"
              (listing_of [("e@x.com", "é"); ("e@x.com", "É")]))
           noon_past 1 2 [("e@x.com", "é")] "e@x.com" "É");
    reflexivity.
Defined.

(** C2. The collector returns what the naive collector returns, for
    every repository: the same mapping or the same exception, and the
    same trace but for the duplicate warnings.  When every commit reads
    without error, that mapping is the fold that assigns
    [mapping[email] = lower(name)] for each commit in order.  On two
    commits of one email, named É and é, both collectors return the
    mapping to é; the collector logs one duplicate warning, the naive
    one logs none. *)
Theorem find_recent_contributors_refines_naive :
  (forall repository since,
     snd (find_recent_contributors repository since) =
     snd (find_recent_contributors_naive repository since) /\
     without_duplicate_warnings
       (fst (find_recent_contributors repository since)) =
     fst (find_recent_contributors_naive repository since) /\
     forall total pairs,
       totalCount (get_commits repository since) = Ok total ->
       elements (get_commits repository since) = map commit_of pairs ->
       snd (find_recent_contributors repository since) =
       Ok (fold_left
             (fun mapping p => Dict.set (fst p) (lower (snd p)) mapping)
             pairs Dict.empty)) /\
  (forall name since,
     find_recent_contributors
       (repository_of name
          (listing_of [("e@x.com", "É"); ("e@x.com", "é")])) since =
     ([Log INFO (AnalyzingCommits name);
       Log DEBUG (FoundTotalCommits 2);
       Log DEBUG (FoundAuthor "é" "e@x.com");
       Log DEBUG (FoundAuthor "é" "e@x.com");
       Log WARNING (DuplicateFound "é" "e@x.com")],
      Ok [("e@x.com", "é")]) /\
     find_recent_contributors_naive
       (repository_of name
          (listing_of [("e@x.com", "É"); ("e@x.com", "é")])) since =
     ([Log INFO (AnalyzingCommits name);
       Log DEBUG (FoundTotalCommits 2);
       Log DEBUG (FoundAuthor "é" "e@x.com");
       Log DEBUG (FoundAuthor "é" "e@x.com")],
      Ok [("e@x.com", "é")])).
Proof.
  split; [| split; reflexivity].
  intros repository since.
  assert (H12 :
    snd (find_recent_contributors repository since) =
    snd (find_recent_contributors_naive repository since) /\
    without_duplicate_warnings (fst (find_recent_contributors repository since)) =
    fst (find_recent_contributors_naive repository since)).
  { unfold find_recent_contributors, find_recent_contributors_naive.
    rewrite !bind_log. cbn [fst snd].
    destruct (totalCount (get_commits repository since)) as [total | x].
    - rewrite !bind_log. cbn [fst snd].
      destruct (collect_refines_naive
                  (elements (get_commits repository since)) Dict.empty)
        as [H1 H2].
      split; [exact H1 |].
      unfold without_duplicate_warnings in *. cbn. now rewrite H2.
    - destruct x; split; reflexivity. }
  destruct H12 as [H1 H2]. split; [exact H1 |]. split; [exact H2 |].
  intros total pairs Ht He.
  rewrite (find_recent_contributors_pairs _ _ _ _ Ht He). f_equal.
  clear. generalize (@Dict.empty string).
  induction pairs as [| p pairs IH]; intros d; simpl; auto.
  rewrite store_assign. apply IH.
Qed.

Lemma find_recent_contributors_refines_naive_witness :
  snd (find_recent_contributors
         (repository_of "o/r"
            (listing_of [("a@x.com", "Bob"); ("a@x.com", "BOB")]))
         noon_past) =
  Ok (fold_left (fun mapping p => Dict.set (fst p) (lower (snd p)) mapping)
        [("a@x.com", "Bob"); ("a@x.com", "BOB")] Dict.empty).
Proof.
  apply (proj1 find_recent_contributors_refines_naive
           (repository_of "o/r"
              (listing_of [("a@x.com", "Bob"); ("a@x.com", "BOB")]))
           noon_past); reflexivity.
Defined.

Lemma fold_store_get_other e post : forall authors,
  (forall p, In p post -> fst p <> e) ->
  Dict.get e (fold_left store post authors) = Dict.get e authors.
Proof.
  induction post as [| p post IH]; intros authors H; simpl; auto.
  rewrite IH by (intros q Hq; apply H; now right).
  rewrite store_assign. apply get_set_other. apply H. now left.
Qed.

(** The name kept for an email is the one of its last commit. *)
Lemma fold_store_last pre e n post authors :
  (forall p, In p post -> fst p <> e) ->
  Dict.get e (fold_left store (pre ++ (e, n) :: post) authors) =
  Some (lower n).
Proof.
  intros H. rewrite fold_left_app. simpl.
  rewrite fold_store_get_other by assumption.
  rewrite store_assign. apply get_set_same.
Qed.

(** C3. When an email occurs under a name [n1] and later under a name
    [n2], with no commit of that email after it, the mapping returned
    stores the later name, lowercased, under that email (whether or not
    the two names differ); and the commits ("a@x.com","Bob"),
    ("a@x.com","Alice") yield the mapping a@x.com -> alice, as the
    commits ("a@x.com","Bob"), ("a@x.com","Émile") yield the mapping
    a@x.com -> émile. *)
Theorem find_recent_contributors_last_name_wins :
  (forall repository since total pre e n1 mid n2 post,
     totalCount (get_commits repository since) = Ok total ->
     elements (get_commits repository since) =
       map commit_of (pre ++ (e, n1) :: mid ++ (e, n2) :: post) ->
     (forall p, In p post -> fst p <> e) ->
     exists authors,
       snd (find_recent_contributors repository since) = Ok authors /\
       Dict.get e authors = Some (lower n2) /\
       (lower n1 <> lower n2 -> ~ In (e, lower n1) (Dict.items authors))) /\
  (forall name since,
     snd (find_recent_contributors
            (repository_of name
               (listing_of [("a@x.com", "Bob"); ("a@x.com", "Alice")])) since) =
     Ok [("a@x.com", "alice")]) /\
  (forall name since,
     snd (find_recent_contributors
            (repository_of name
               (listing_of [("a@x.com", "Bob"); ("a@x.com", "Émile")])) since) =
     Ok [("a@x.com", "émile")]).
Proof.
  split; [| split; reflexivity].
  intros repository since total pre e n1 mid n2 post Ht He Hpost.
  eexists. split; [eapply find_recent_contributors_pairs; eauto |].
  assert (G : Dict.get e
            (fold_left store (pre ++ (e, n1) :: mid ++ (e, n2) :: post)
               Dict.empty) = Some (lower n2)).
  { replace (pre ++ (e, n1) :: mid ++ (e, n2) :: post)
      with ((pre ++ (e, n1) :: mid) ++ (e, n2) :: post)
      by (rewrite <- app_assoc; reflexivity).
    now apply fold_store_last. }
  split; [exact G |].
  intros Hne HIn. unfold Dict.items in HIn. apply In_get_NoDup in HIn.
  - congruence.
  - apply fold_store_NoDup. constructor.
Qed.

Lemma find_recent_contributors_last_name_wins_witness :
  exists authors,
    snd (find_recent_contributors
           (repository_of "o/r"
              (listing_of [("b@x.com", "Eve"); ("a@x.com", "Bob");
                           ("a@x.com", "Émile"); ("b@x.com", "Eve")]))
           noon_past) = Ok authors /\
    Dict.get "a@x.com" authors = Some (lower "Émile") /\
    (lower "Bob" <> lower "Émile" ->
     ~ In ("a@x.com", lower "Bob") (Dict.items authors)).
Proof.
  apply (proj1 find_recent_contributors_last_name_wins
           (repository_of "o/r"
              (listing_of [("b@x.com", "Eve"); ("a@x.com", "Bob");
                           ("a@x.com", "Émile"); ("b@x.com", "Eve")]))
           noon_past 4 [("b@x.com", "Eve")] "a@x.com" "Bob" [] "Émile"
           [("b@x.com", "Eve")]).
  - reflexivity.
  - reflexivity.
  - intros p [<- | []]. simpl. discriminate.
Defined.

(** C4, as the code has it.  When probing the commit count raises
    [GithubException] (what the client raises for a repository that is
    empty or cannot be read), the collector logs a warning and returns
    the empty mapping, and nothing is raised; when the probe raises
    any other exception, the collector does not catch it: it ends with
    that exception right after its first log line. *)
Theorem find_recent_contributors_empty_repository :
  forall repository since e,
    totalCount (get_commits repository since) = Raise e ->
    (forall data,
       e = GithubException data ->
       find_recent_contributors repository since =
       ([Log INFO (AnalyzingCommits (full_name repository));
         Log WARNING SkippingEmpty],
        Ok Dict.empty)) /\
    ((forall data, e <> GithubException data) ->
     find_recent_contributors repository since =
     ([Log INFO (AnalyzingCommits (full_name repository))], Raise e)).
Proof.
  intros repository since e H. unfold find_recent_contributors.
  rewrite H. split.
  - intros data ->. reflexivity.
  - intros He. destruct e; try reflexivity. now elim (He data).
Qed.

Lemma find_recent_contributors_empty_repository_witness :
  find_recent_contributors (repository_of "o/empty" empty_listing) noon_past =
  ([Log INFO (AnalyzingCommits "o/empty"); Log WARNING SkippingEmpty],
   Ok Dict.empty).
Proof.
  apply (proj1 (find_recent_contributors_empty_repository
                  (repository_of "o/empty" empty_listing) noon_past
                  (GithubException "409 Git Repository is empty.")
                  eq_refl)
           "409 Git Repository is empty." eq_refl).
Defined.

(** C4, as stated, fails: the probe raises, here with a connection
    error, and the collector raises with it instead of returning the
    empty mapping. *)
Lemma find_recent_contributors_probe_error_raised :
  totalCount (get_commits (repository_of "o/r" unreachable_listing) noon_past) =
    Raise (OtherError "ConnectionError") /\
  find_recent_contributors (repository_of "o/r" unreachable_listing) noon_past =
    ([Log INFO (AnalyzingCommits "o/r")],
     Raise (OtherError "ConnectionError")) /\
  snd (find_recent_contributors (repository_of "o/r" unreachable_listing)
         noon_past) <> Ok Dict.empty.
Proof.
  split; [reflexivity |]. split; [reflexivity | discriminate].
Qed.

(** ** The time window *)

(** Parsing the ISO 8601 text of a timestamp gives the timestamp back. *)
Lemma fromisoformat_isoformat d : fromisoformat (isoformat d) = d.
Proof.
  destruct d as [t tz]. unfold fromisoformat, isoformat.
  cbn [micros tzinfo iso_seconds iso_fraction iso_offset]. f_equal.
  pose proof (Z.div_mod t 1000000 ltac:(lia)) as H.
  destruct (Z.eqb_spec (t mod 1000000) 0); lia.
Qed.

Lemma since_datetime_in_window now days :
  in_range now -> (0 <= days)%Z -> (days * DAY <= now)%Z ->
  since_datetime now days =
  Ok {| micros := now - days * DAY; tzinfo := None |}.
Proof.
  unfold in_range, since_datetime, timedelta, datetime_sub, today.
  unfold MAX_MICROS, DAY. cbn [micros tzinfo]. intros Hr Hd Hw.
  destruct (Z.leb_spec (Z.abs days) 999999999) as [_ | Habs]; [| lia].
  destruct (Z.leb_spec 0 (now - days * (24 * 60 * 60 * 1000000)));
    [| lia].
  destruct (Z.leb_spec (now - days * (24 * 60 * 60 * 1000000))
              (3652059 * (24 * 60 * 60 * 1000000) - 1)); [| lia].
  cbn [andb]. now rewrite fromisoformat_isoformat.
Qed.

Lemma since_datetime_overflow now days :
  in_range now -> (0 <= days)%Z -> (now < days * DAY)%Z ->
  since_datetime now days = Raise OverflowError.
Proof.
  unfold in_range, since_datetime, timedelta, datetime_sub, today.
  unfold MAX_MICROS, DAY. cbn [micros tzinfo]. intros Hr Hd Hw.
  destruct (Z.leb_spec (Z.abs days) 999999999) as [_ | Habs];
    [| reflexivity].
  destruct (Z.leb_spec 0 (now - days * (24 * 60 * 60 * 1000000)));
    [lia | reflexivity].
Qed.

(** C6, as the code has it.  With [now] the clock reading the call
    takes, [since_datetime] returns the naive timestamp [now] minus
    [days] times 24 hours, exactly, whenever that instant is not before
    0001-01-01; it is strictly earlier than [now] if and only if [days]
    is at least 1.  When the instant would fall before 0001-01-01 the
    call raises [OverflowError]. *)
Theorem since_datetime_window :
  forall now days,
    in_range now -> (0 <= days)%Z ->
    ((days * DAY <= now)%Z ->
       since_datetime now days =
         Ok {| micros := now - days * DAY; tzinfo := None |} /\
       ((now - days * DAY < now)%Z <-> (1 <= days)%Z)) /\
    ((now < days * DAY)%Z -> since_datetime now days = Raise OverflowError).
Proof.
  intros now days Hr Hd. split.
  - intros Hw. split; [now apply since_datetime_in_window |].
    unfold DAY. lia.
  - now apply since_datetime_overflow.
Qed.

Lemma since_datetime_window_witness :
  since_datetime noon 90 = Ok noon_past /\
  ((micros noon_past < noon)%Z <-> (1 <= 90)%Z).
Proof.
  assert (Hr : in_range noon) by (unfold in_range; vm_compute; intuition discriminate).
  assert (Hd : (0 <= 90)%Z) by lia.
  assert (Hw : (90 * DAY <= noon)%Z) by (vm_compute; discriminate).
  exact (proj1 (since_datetime_window noon 90 Hr Hd) Hw).
Defined.

(** C6, as stated, fails: with zero days the timestamp returned is the
    clock reading itself, not an earlier instant; and a number of days
    reaching before 0001-01-01 makes the call raise. *)
Lemma since_datetime_zero_days_not_earlier :
  since_datetime noon 0 = Ok (today noon) /\
  ~ (micros (today noon) < noon)%Z /\
  since_datetime noon 1000000 = Raise OverflowError.
Proof.
  split; [reflexivity |]. split; [simpl; lia | reflexivity].
Qed.

(** ** The loop of [main] *)

Lemma stdout_collect commits : forall authors,
  stdout (fst (collect commits authors)) = [].
Proof.
  induction commits as [| c rest IH]; intros authors; [reflexivity |].
  destruct (read_error_cases c) as [(name & email & Hn & He & _) | [x Hx]].
  - rewrite (collect_cons_ok _ _ _ _ _ Hn He). cbn [fst].
    change (Log DEBUG (FoundAuthor (lower name) email) :: ?t)
      with ([Log DEBUG (FoundAuthor (lower name) email)] ++ t).
    rewrite !stdout_app, IH.
    destruct (items_contains (email, lower name) authors); reflexivity.
  - now rewrite (collect_cons_error _ _ _ _ Hx).
Qed.

Lemma stdout_find_recent_contributors repository since :
  stdout (fst (find_recent_contributors repository since)) = [].
Proof.
  unfold find_recent_contributors. rewrite bind_log. cbn [fst].
  destruct (totalCount (get_commits repository since)) as [total | x].
  - rewrite bind_log. cbn [fst]. simpl. apply stdout_collect.
  - destruct x; reflexivity.
Qed.

Lemma main_loop_stdout github org past names : forall st,
  stdout (fst (main_loop github org past names st)) = [].
Proof.
  induction names as [| repo rest IH]; intros st; [reflexivity |].
  cbn [main_loop].
  destruct (get_repo github (org ++ "/" ++ repo)%string) as [R | x].
  - rewrite bind_fst, stdout_app, stdout_find_recent_contributors.
    destruct (snd (find_recent_contributors R past)); [apply IH | reflexivity].
  - destruct x; try reflexivity.
    rewrite bind_log. cbn [fst]. rewrite bind_log. cbn [fst]. simpl.
    apply IH.
Qed.

(** The loop ends as [processed] says, on the state folded by [absorb]. *)
Lemma main_loop_snd github org past names : forall st,
  snd (main_loop github org past names st) =
  match processed github org past names with
  | Ok done => Ok (fold_left absorb done st)
  | Raise e => Raise e
  end.
Proof.
  induction names as [| repo rest IH]; intros st; [reflexivity |].
  cbn [main_loop processed].
  destruct (get_repo github (org ++ "/" ++ repo)%string) as [R | x].
  - rewrite bind_snd.
    destruct (snd (find_recent_contributors R past)) as [d | x];
      [| reflexivity].
    rewrite IH.
    destruct (processed github org past rest); reflexivity.
  - destruct x; try reflexivity.
    rewrite bind_log. cbn [snd]. rewrite bind_log. cbn [snd].
    apply IH.
Qed.

Lemma main_with_repos github now org repos debug past :
  since_datetime now DAYS_AGO = Ok past ->
  main github now org (Some repos) debug =
  (st <- main_loop github org past (split "," repos)
           (Dict.empty, Dict.empty) ;;
   if Dict.truthy (fst st) then print (report_of st) else ret tt).
Proof.
  intros H. unfold main. rewrite H, bind_lift_ok. reflexivity.
Qed.

(** What [main] prints, and how it ends, by the repositories it got
    through. *)
Lemma main_stdout github now org repos debug past :
  since_datetime now DAYS_AGO = Ok past ->
  stdout (fst (main github now org (Some repos) debug)) =
  match processed github org past (split "," repos) with
  | Ok done =>
      if Dict.truthy (fst (aggregate done))
      then [report_of (aggregate done)] else []
  | Raise _ => []
  end.
Proof.
  intros H. rewrite (main_with_repos _ _ _ _ _ _ H).
  rewrite bind_fst, stdout_app, main_loop_stdout, main_loop_snd.
  destruct (processed github org past (split "," repos)) as [done | x];
    [| reflexivity].
  fold (aggregate done).
  destruct (Dict.truthy (fst (aggregate done))); reflexivity.
Qed.

Lemma main_snd github now org repos debug past :
  since_datetime now DAYS_AGO = Ok past ->
  snd (main github now org (Some repos) debug) =
  match processed github org past (split "," repos) with
  | Ok _ => Ok tt
  | Raise e => Raise e
  end.
Proof.
  intros H. rewrite (main_with_repos _ _ _ _ _ _ H).
  rewrite bind_snd, main_loop_snd.
  destruct (processed github org past (split "," repos)) as [done | x];
    [| reflexivity].
  destruct (Dict.truthy (fst (fold_left absorb done (Dict.empty, Dict.empty))));
    reflexivity.
Qed.

Lemma In_Print_stdout r t : In (Print r) t <-> In r (stdout t).
Proof.
  induction t as [| e t IH]; simpl; [tauto |].
  destruct e as [l m | r']; simpl; rewrite <- IH.
  - split; [intros [? | ?]; [discriminate | auto] | auto].
  - split; intros [E | ?]; auto; left; congruence.
Qed.

(** The state is not empty as soon as one repository was absorbed. *)
Lemma absorb_truthy st rd : Dict.truthy (fst (absorb st rd)) = true.
Proof.
  unfold absorb. cbn [fst]. destruct (fst st) as [| [k v] d]; simpl; auto.
  destruct (String.eqb (fst rd) k); reflexivity.
Qed.

Lemma fold_absorb_truthy done : forall st,
  Dict.truthy (fst (fold_left absorb done st)) =
  match done with [] => Dict.truthy (fst st) | _ :: _ => true end.
Proof.
  induction done as [| rd done IH]; intros st; [reflexivity |].
  simpl. rewrite IH. destruct done; auto using absorb_truthy.
Qed.

(** Membership in the list of repositories the loop got through. *)
Lemma processed_In github org past names : forall done,
  processed github org past names = Ok done ->
  forall repo d,
    In (repo, d) done <->
    In repo names /\
    exists R, get_repo github (repo_path org repo) = Ok R /\
              snd (find_recent_contributors R past) = Ok d.
Proof.
  unfold repo_path.
  induction names as [| r rest IH]; intros done H repo d.
  - inversion H; subst. simpl. split; [tauto | intros [[] _]].
  - cbn [processed] in H.
    destruct (get_repo github (org ++ "/" ++ r)%string) as [R | x] eqn:HR.
    + destruct (snd (find_recent_contributors R past)) as [d0 | x] eqn:Hd;
        [| discriminate].
      destruct (processed github org past rest) as [done0 | x] eqn:Hp;
        [| discriminate].
      inversion H; subst. cbn [In]. rewrite (IH done0 eq_refl). split.
      * intros [E | [HI HE]]; [| tauto].
        inversion E; subst. split; [now left |]. eauto.
      * intros [[-> | HI] (R' & HR' & Hd')].
        -- left. congruence.
        -- right. eauto.
    + destruct x; try discriminate.
      rewrite (IH done H). cbn [In]. split; [tauto |].
      intros [[-> | HI] (R' & HR' & Hd')]; [congruence | eauto].
Qed.

(** A name whose lookup succeeds is among them when the loop ends. *)
Lemma processed_complete github org past names : forall done,
  processed github org past names = Ok done ->
  forall repo R,
    In repo names -> get_repo github (repo_path org repo) = Ok R ->
    exists d, snd (find_recent_contributors R past) = Ok d /\
              In (repo, d) done.
Proof.
  unfold repo_path.
  induction names as [| r rest IH]; intros done H repo R HI HR; [destruct HI |].
  cbn [processed] in H.
  destruct (get_repo github (org ++ "/" ++ r)%string) as [R0 | x] eqn:HR0.
  - destruct (snd (find_recent_contributors R0 past)) as [d0 | x] eqn:Hd;
      [| discriminate].
    destruct (processed github org past rest) as [done0 | x] eqn:Hp;
      [| discriminate].
    inversion H; subst. destruct HI as [-> | HI].
    + exists d0. split; [congruence | now left].
    + destruct (IH done0 eq_refl repo R HI HR) as (d & Hd' & HIn).
      exists d. split; [assumption | now right].
  - destruct x; try discriminate.
    destruct HI as [-> | HI]; [congruence |].
    eauto.
Qed.

Lemma processed_app github org past l1 : forall l2,
  processed github org past (l1 ++ l2) =
  match processed github org past l1 with
  | Raise e => Raise e
  | Ok d1 =>
      match processed github org past l2 with
      | Raise e => Raise e
      | Ok d2 => Ok (d1 ++ d2)
      end
  end.
Proof.
  induction l1 as [| r l1 IH]; intros l2.
  - simpl. destruct (processed github org past l2); reflexivity.
  - cbn [app processed].
    destruct (get_repo github (org ++ "/" ++ r)%string) as [R | x].
    + destruct (snd (find_recent_contributors R past)); [| reflexivity].
      rewrite IH.
      destruct (processed github org past l1); [| reflexivity].
      destruct (processed github org past l2); reflexivity.
    + destruct x; auto.
Qed.

(** Names that are skipped or collected without an exception. *)
Lemma processed_quiet github org past names :
  (forall repo, In repo names ->
     (exists data,
        get_repo github (repo_path org repo) = Raise (GithubException data)) \/
     (exists R d,
        get_repo github (repo_path org repo) = Ok R /\
        snd (find_recent_contributors R past) = Ok d)) ->
  exists done, processed github org past names = Ok done.
Proof.
  unfold repo_path.
  induction names as [| r rest IH]; intros H; [now exists [] |].
  destruct IH as [done Hdone]; [intros repo HI; apply H; now right |].
  cbn [processed].
  destruct (H r (or_introl eq_refl)) as [[data E] | (R & d & E & Hd)];
    rewrite E.
  - eauto.
  - rewrite Hd, Hdone. eauto.
Qed.

(** ** Usage error and output *)

(** C7, as the code has it.  Without a repository list, [main] logs
    the error "no repositories provided" and ends at once through
    [sys.exit()]: nothing is printed, no repository is looked up or
    analysed, and the exit status is the one of [sys.exit()] without an
    argument, which is zero. *)
Theorem main_without_repositories :
  forall github now org debug,
    in_range now -> (DAYS_AGO * DAY <= now)%Z ->
    main github now org None debug =
      ([Log ERROR NoRepositories], Raise (SystemExit None)) /\
    stdout (fst (main github now org None debug)) = [] /\
    emitted (debug_level debug) (fst (main github now org None debug)) =
      [NoRepositories] /\
    exit_status (snd (main github now org None debug)) = 0%Z.
Proof.
  intros github now org debug Hr Hw.
  assert (E : main github now org None debug =
              ([Log ERROR NoRepositories], Raise (SystemExit None))).
  { unfold main.
    rewrite (since_datetime_in_window now DAYS_AGO Hr) by (unfold DAYS_AGO; lia || assumption).
    reflexivity. }
  rewrite E. repeat split. destruct debug; reflexivity.
Qed.

Lemma main_without_repositories_witness :
  main two_repositories noon ORG_NAME None false =
    ([Log ERROR NoRepositories], Raise (SystemExit None)) /\
  stdout (fst (main two_repositories noon ORG_NAME None false)) = [] /\
  emitted (debug_level false)
    (fst (main two_repositories noon ORG_NAME None false)) =
    [NoRepositories] /\
  exit_status (snd (main two_repositories noon ORG_NAME None false)) = 0%Z.
Proof.
  apply (main_without_repositories two_repositories noon ORG_NAME false).
  - unfold in_range. vm_compute. intuition discriminate.
  - vm_compute. discriminate.
Defined.

(** C7, as stated, fails: the early exit has status zero. *)
Lemma main_without_repositories_exit_zero :
  snd (main two_repositories noon ORG_NAME None false) =
    Raise (SystemExit None) /\
  ~ (exit_status (snd (main two_repositories noon ORG_NAME None false))
     <> 0%Z).
Proof.
  split; [reflexivity |]. intros H. apply H. reflexivity.
Qed.

(** C8, as the code has it.  The report is printed only if at least
    one repository was looked up and collected without an exception;
    and when the run ends normally, it is printed if and only if at
    least one lookup succeeded. *)
Theorem main_prints_report :
  forall github now org repos debug past,
    since_datetime now DAYS_AGO = Ok past ->
    (stdout (fst (main github now org (Some repos) debug)) <> [] ->
       exists repo R d,
         In repo (split "," repos) /\
         get_repo github (repo_path org repo) = Ok R /\
         snd (find_recent_contributors R past) = Ok d) /\
    (snd (main github now org (Some repos) debug) = Ok tt ->
       (stdout (fst (main github now org (Some repos) debug)) <> [] <->
        exists repo R,
          In repo (split "," repos) /\
          get_repo github (repo_path org repo) = Ok R)).
Proof.
  intros github now org repos debug past Hs.
  rewrite (main_stdout _ _ _ _ _ _ Hs), (main_snd _ _ _ _ _ _ Hs).
  destruct (processed github org past (split "," repos)) as [done | x] eqn:Hp.
  - unfold aggregate. rewrite fold_absorb_truthy.
    pose proof (processed_In _ _ _ _ _ Hp) as HIn.
    pose proof (processed_complete _ _ _ _ _ Hp) as Hc.
    destruct done as [| [repo d] done].
    + split; [intros H; now elim H |].
      intros _. split; [intros H; now elim H |].
      intros (repo & R & HI & HR).
      destruct (Hc repo R HI HR) as (d & _ & []).
    + destruct (proj1 (HIn repo d) (or_introl eq_refl)) as (HI & R & HR & Hd).
      split; [intros _; eauto 6 |].
      intros _. split; [intros _; eauto | intros _; discriminate].
  - split; [intros H; now elim H | discriminate].
Qed.

Lemma main_prints_report_witness :
  (stdout (fst (main two_repositories noon ORG_NAME (Some "r1,r2") false))
     <> [] ->
     exists repo R d,
       In repo (split "," "r1,r2") /\
       get_repo two_repositories (repo_path ORG_NAME repo) = Ok R /\
       snd (find_recent_contributors R noon_past) = Ok d) /\
  (snd (main two_repositories noon ORG_NAME (Some "r1,r2") false) = Ok tt ->
     (stdout (fst (main two_repositories noon ORG_NAME (Some "r1,r2") false))
        <> [] <->
      exists repo R,
        In repo (split "," "r1,r2") /\
        get_repo two_repositories (repo_path ORG_NAME repo) = Ok R)).
Proof.
  apply (main_prints_report two_repositories noon ORG_NAME "r1,r2" false
           noon_past).
  reflexivity.
Defined.

(** C8, as stated, fails: [r1] is looked up and collected (one
    contributor), then a commit of [r2] cannot be read; the run ends
    with that exception and nothing is printed. *)
Lemma main_no_report_after_success :
  (exists R,
     get_repo one_broken_repository (repo_path ORG_NAME "r1") = Ok R /\
     snd (find_recent_contributors R noon_past) = Ok [("a@x.com", "bob")]) /\
  since_datetime noon DAYS_AGO = Ok noon_past /\
  snd (main one_broken_repository noon ORG_NAME (Some "r1,r2") false) =
    Raise (OtherError "AttributeError") /\
  stdout (fst (main one_broken_repository noon ORG_NAME (Some "r1,r2")
                 false)) = [].
Proof.
  split; [eexists; split; reflexivity |].
  repeat split; reflexivity.
Qed.

(** C9. An error raised while reading the author name or email of a
    commit is not caught by the collector: the collector ends with that
    exception; and [main] has no handler around the collector either,
    so the run ends with it and nothing is printed. *)
Theorem extraction_error_propagates :
  (forall repository since total pre c post x,
     totalCount (get_commits repository since) = Ok total ->
     elements (get_commits repository since) = pre ++ c :: post ->
     (forall c', In c' pre -> read_error c' = None) ->
     read_error c = Some x ->
     snd (find_recent_contributors repository since) = Raise x) /\
  (forall github now org repos debug past before repo after R x,
     since_datetime now DAYS_AGO = Ok past ->
     split "," repos = before ++ repo :: after ->
     (forall repo', In repo' before ->
        (exists data,
           get_repo github (repo_path org repo') =
             Raise (GithubException data)) \/
        (exists R' d,
           get_repo github (repo_path org repo') = Ok R' /\
           snd (find_recent_contributors R' past) = Ok d)) ->
     get_repo github (repo_path org repo) = Ok R ->
     snd (find_recent_contributors R past) = Raise x ->
     snd (main github now org (Some repos) debug) = Raise x /\
     stdout (fst (main github now org (Some repos) debug)) = []).
Proof.
  split.
  - intros repository since total pre c post x Ht He Hpre Hc.
    rewrite (find_recent_contributors_probed _ _ _ Ht), He. cbn [snd].
    now apply collect_raises.
  - intros github now org repos debug past before repo after R x
      Hs Hsplit Hbefore HR Hx.
    rewrite (main_stdout _ _ _ _ _ _ Hs), (main_snd _ _ _ _ _ _ Hs).
    rewrite Hsplit, processed_app.
    destruct (processed_quiet _ _ _ _ Hbefore) as [done ->].
    cbn [processed]. unfold repo_path in HR. rewrite HR, Hx.
    split; reflexivity.
Qed.

Lemma extraction_error_propagates_witness :
  snd (find_recent_contributors
         (repository_of "o/r"
            {| totalCount := Ok 2;
               elements := [commit_of ("a@x.com", "Bob"); broken_commit] |})
         noon_past) = Raise (OtherError "AttributeError") /\
  snd (main one_broken_repository noon ORG_NAME (Some "r1,r2") false) =
    Raise (OtherError "AttributeError") /\
  stdout (fst (main one_broken_repository noon ORG_NAME (Some "r1,r2")
                 false)) = [].
Proof.
  split.
  - apply (proj1 extraction_error_propagates
             (repository_of "o/r"
                {| totalCount := Ok 2;
                   elements := [commit_of ("a@x.com", "Bob"); broken_commit] |})
             noon_past 2 [commit_of ("a@x.com", "Bob")] broken_commit []
             (OtherError "AttributeError")).
    + reflexivity.
    + reflexivity.
    + intros c' [<- | []]. reflexivity.
    + reflexivity.
  - apply (proj2 extraction_error_propagates
             one_broken_repository noon ORG_NAME "r1,r2" false noon_past
             ["r1"] "r2" []
             (repository_of "bradleyfrank/r2"
                {| totalCount := Ok 1; elements := [broken_commit] |})
             (OtherError "AttributeError")).
    + reflexivity.
    + reflexivity.
    + intros repo' [<- | []]. right.
      exists (repository_of "bradleyfrank/r1" (listing_of [("a@x.com", "Bob")])),
             [("a@x.com", "bob")].
      split; reflexivity.
    + reflexivity.
    + reflexivity.
Defined.

(** ** The order on strings and [sorted] *)

Lemma ascii_compare_refl a : Ascii.compare a a = Eq.
Proof. unfold Ascii.compare. apply N.compare_refl. Qed.

Lemma ascii_compare_lt_trans a b c :
  Ascii.compare a b = Lt -> Ascii.compare b c = Lt -> Ascii.compare a c = Lt.
Proof.
  unfold Ascii.compare. rewrite !N.compare_lt_iff. apply N.lt_trans.
Qed.

Lemma string_lt_trans s1 : forall s2 s3,
  string_lt s1 s2 -> string_lt s2 s3 -> string_lt s1 s3.
Proof.
  unfold string_lt.
  induction s1 as [| a s1 IH]; intros [| b s2] [| c s3]; simpl;
    try discriminate; auto.
  destruct (Ascii.compare a b) eqn:Eab; try discriminate;
    destruct (Ascii.compare b c) eqn:Ebc; try discriminate; intros H1 H2.
  - apply Ascii.compare_eq_iff in Eab, Ebc. subst.
    rewrite ascii_compare_refl. eauto.
  - apply Ascii.compare_eq_iff in Eab. subst. now rewrite Ebc.
  - apply Ascii.compare_eq_iff in Ebc. subst. now rewrite Eab.
  - now rewrite (ascii_compare_lt_trans _ _ _ Eab Ebc).
Qed.

Lemma string_compare_refl s : String.compare s s = Eq.
Proof.
  induction s as [| a s IH]; simpl; auto. now rewrite ascii_compare_refl.
Qed.

Lemma string_lt_irrefl s : ~ string_lt s s.
Proof. unfold string_lt. rewrite string_compare_refl. discriminate. Qed.


Lemma pair_ltb_true x y :
  fst x <> fst y -> pair_ltb x y = true -> key_lt x y.
Proof.
  unfold pair_ltb, key_lt, string_lt. intros Hne.
  destruct (String.compare (fst x) (fst y)) eqn:E; try discriminate; auto.
  apply String.compare_eq_iff in E. contradiction.
Qed.

Lemma pair_ltb_false x y :
  fst x <> fst y -> pair_ltb x y = false -> key_lt y x.
Proof.
  unfold pair_ltb, key_lt, string_lt. intros Hne.
  rewrite (String.compare_antisym (fst y) (fst x)).
  destruct (String.compare (fst x) (fst y)) eqn:E; try discriminate; auto.
  apply String.compare_eq_iff in E. contradiction.
Qed.

Lemma insert_perm x l : Permutation (insert x l) (x :: l).
Proof.
  induction l as [| y l IH]; simpl; auto.
  destruct (pair_ltb x y); auto.
  rewrite IH. apply perm_swap.
Qed.

Lemma insert_sorted x l :
  ~ In (fst x) (map fst l) ->
  StronglySorted key_lt l -> StronglySorted key_lt (insert x l).
Proof.
  induction l as [| y l IH]; intros Hx Hs; simpl.
  - repeat constructor.
  - simpl in Hx. inversion Hs as [| y' l' Hl Hy]; subst.
    assert (Hne : fst x <> fst y) by (intros E; apply Hx; left; congruence).
    destruct (pair_ltb x y) eqn:E.
    + apply pair_ltb_true in E; auto. constructor; auto.
      constructor; auto.
      rewrite Forall_forall in *. intros z Hz.
      eapply string_lt_trans; [exact E | now apply Hy].
    + apply pair_ltb_false in E; auto. constructor.
      * apply IH; tauto.
      * rewrite Forall_forall in *. intros z Hz.
        apply (Permutation_in _ (insert_perm x l)) in Hz.
        destruct Hz as [<- | Hz]; auto.
Qed.

Lemma fold_insert_perm l : forall acc,
  Permutation (fold_left (fun acc x => insert x acc) l acc) (l ++ acc).
Proof.
  induction l as [| x l IH]; intros acc; simpl; auto.
  rewrite IH, insert_perm. symmetry. apply Permutation_middle.
Qed.

Lemma fold_insert_sorted l : forall acc,
  NoDup (map fst (l ++ acc)) -> StronglySorted key_lt acc ->
  StronglySorted key_lt (fold_left (fun acc x => insert x acc) l acc).
Proof.
  induction l as [| x l IH]; intros acc ND Hs; simpl; auto.
  simpl in ND. inversion ND as [| k ks Hk ND']; subst.
  apply IH.
  - eapply Permutation_NoDup; [| exact ND].
    change (fst x :: map fst (l ++ acc)) with (map fst (x :: l ++ acc)).
    apply Permutation_map. rewrite insert_perm. apply Permutation_middle.
  - apply insert_sorted; auto.
    intros HI. apply Hk. rewrite map_app, in_app_iff. now right.
Qed.

Lemma sorted_perm l : Permutation (sorted l) l.
Proof.
  unfold sorted. rewrite fold_insert_perm. now rewrite app_nil_r.
Qed.

Lemma sorted_sorted l :
  NoDup (map fst l) -> StronglySorted key_lt (sorted l).
Proof.
  intros ND. apply fold_insert_sorted.
  - now rewrite app_nil_r.
  - constructor.
Qed.

Lemma StronglySorted_keys (l : list (string * string)) :
  StronglySorted key_lt l -> StronglySorted string_lt (map fst l).
Proof.
  induction 1 as [| x l Hs IH Hx]; simpl; constructor; auto.
  rewrite Forall_forall in *. intros k Hk.
  apply in_map_iff in Hk. destruct Hk as (y & <- & Hy). now apply Hx.
Qed.

(** [dict] of a list of pairs with distinct keys is that list. *)
Lemma fold_set_distinct {V} (l : list (string * V)) : forall acc,
  NoDup (map fst (acc ++ l)) ->
  fold_left (fun acc kv => Dict.set (fst kv) (snd kv) acc) l acc = acc ++ l.
Proof.
  induction l as [| [k v] l IH]; intros acc ND; simpl.
  - now rewrite app_nil_r.
  - assert (Hk : ~ In k (Dict.keys acc)).
    { rewrite map_app in ND. simpl in ND.
      apply NoDup_remove_2 in ND. intros HI. apply ND.
      rewrite in_app_iff. now left. }
    rewrite set_absent by assumption.
    rewrite IH; rewrite <- app_assoc; auto.
Qed.

Lemma of_list_distinct {V} (l : list (string * V)) :
  NoDup (map fst l) -> Dict.of_list l = l.
Proof. intros ND. unfold Dict.of_list. now rewrite fold_set_distinct. Qed.

(** Permuting the entries of a dictionary keeps what each key maps to. *)
Lemma get_perm {V} (d d' : dict V) k :
  NoDup (Dict.keys d) -> Permutation d d' -> Dict.get k d' = Dict.get k d.
Proof.
  intros ND HP.
  assert (ND' : NoDup (Dict.keys d'))
    by (eapply Permutation_NoDup; [apply Permutation_map; exact HP | exact ND]).
  destruct (Dict.get k d) as [v |] eqn:G.
  - apply In_get_NoDup; auto.
    eapply Permutation_in; [exact HP |]. now apply get_Some_In.
  - apply get_None_not_key. apply get_None_not_key in G.
    intros HI. apply G.
    eapply Permutation_in; [apply Permutation_map, Permutation_sym, HP | exact HI].
Qed.

(** The [contributors] map of the report, against [all_contributors]. *)
Lemma report_contributors st :
  NoDup (Dict.keys (snd st)) ->
  contributors (report_of st) = sorted (snd st) /\
  Permutation (contributors (report_of st)) (snd st) /\
  NoDup (Dict.keys (contributors (report_of st))) /\
  StronglySorted string_lt (Dict.keys (contributors (report_of st))) /\
  (forall k, Dict.get k (contributors (report_of st)) = Dict.get k (snd st)) /\
  num_unique_contributors (report_of st) = Dict.len (snd st).
Proof.
  intros ND. unfold report_of, Dict.items.
  cbn [contributors num_unique_contributors].
  assert (NDs : NoDup (map fst (sorted (snd st)))).
  { eapply Permutation_NoDup; [| exact ND].
    apply Permutation_map, Permutation_sym, sorted_perm. }
  rewrite (of_list_distinct _ NDs).
  split; [reflexivity |]. split; [apply sorted_perm |].
  split; [exact NDs |].
  split; [apply StronglySorted_keys, sorted_sorted, ND |].
  split.
  - intros k. apply get_perm; auto. apply Permutation_sym, sorted_perm.
  - unfold Dict.len. apply Permutation_length, sorted_perm.
Qed.

(** ** Merging mappings *)

Section UpdateFacts.
Context {V : Type}.
Implicit Types (a d : dict V) (k : string).

Lemma mem_In k a : Dict.mem k a = true <-> In k (Dict.keys a).
Proof.
  unfold Dict.mem. destruct (Dict.get k a) eqn:G.
  - split; auto. intros _. eapply get_Some_key; eauto.
  - apply get_None_not_key in G. split; [discriminate | contradiction].
Qed.

Lemma mem_not_In k a : Dict.mem k a = false <-> ~ In k (Dict.keys a).
Proof.
  rewrite <- mem_In. destruct (Dict.mem k a); split; congruence.
Qed.

Lemma update_cons a k (v : V) d :
  Dict.update a ((k, v) :: d) = Dict.update (Dict.set k v a) d.
Proof. reflexivity. Qed.

Lemma In_keys_update d : forall a k,
  In k (Dict.keys (Dict.update a d)) <->
  In k (Dict.keys a) \/ In k (Dict.keys d).
Proof.
  induction d as [| [k0 v0] d IH]; intros a k.
  - simpl. tauto.
  - rewrite update_cons, IH, In_keys_set. simpl. intuition.
Qed.

Lemma NoDup_keys_update d : forall a,
  NoDup (Dict.keys a) -> NoDup (Dict.keys (Dict.update a d)).
Proof.
  induction d as [| [k0 v0] d IH]; intros a ND; auto.
  rewrite update_cons. apply IH. now apply NoDup_keys_set.
Qed.

(** On a collision the entry of the mapping merged in wins. *)
Lemma get_update d : forall a k,
  NoDup (Dict.keys d) ->
  Dict.get k (Dict.update a d) =
  match Dict.get k d with Some v => Some v | None => Dict.get k a end.
Proof.
  induction d as [| [k0 v0] d IH]; intros a k ND; [reflexivity |].
  simpl in ND. inversion ND as [| k' ks Hk0 ND']; subst.
  rewrite update_cons, IH by assumption. simpl.
  destruct (String.eqb_spec k k0) as [-> | Hne].
  - apply get_None_not_key in Hk0. rewrite Hk0. apply get_set_same.
  - destruct (Dict.get k d); auto. apply get_set_other. congruence.
Qed.

Lemma len_update_bounds d : forall a,
  Dict.len a <= Dict.len (Dict.update a d) <= Dict.len a + Dict.len d.
Proof.
  induction d as [| [k0 v0] d IH]; intros a.
  - unfold Dict.len, Dict.update, Dict.items. simpl. lia.
  - rewrite update_cons. specialize (IH (Dict.set k0 v0 a)).
    rewrite len_set in IH. unfold Dict.len in *. simpl.
    destruct (Dict.mem k0 a); lia.
Qed.

Lemma len_update_subset d : forall a,
  (forall k, In k (Dict.keys d) -> In k (Dict.keys a)) ->
  Dict.len (Dict.update a d) = Dict.len a.
Proof.
  induction d as [| [k0 v0] d IH]; intros a H; [reflexivity |].
  rewrite update_cons.
  assert (Hk0 : In k0 (Dict.keys a)) by (apply H; now left).
  rewrite IH.
  - rewrite len_set. apply mem_In in Hk0. now rewrite Hk0.
  - intros k Hk. apply In_keys_set. right. apply H. now right.
Qed.

(** The merge adds up the sizes exactly when no key is shared. *)
Lemma len_update_disjoint d : forall a,
  NoDup (Dict.keys d) ->
  (Dict.len (Dict.update a d) = Dict.len a + Dict.len d <->
   forall k, In k (Dict.keys d) -> ~ In k (Dict.keys a)).
Proof.
  induction d as [| [k0 v0] d IH]; intros a ND.
  - unfold Dict.len, Dict.update, Dict.items. simpl. split; [tauto | lia].
  - simpl in ND. inversion ND as [| k' ks Hk0 ND']; subst.
    rewrite update_cons.
    pose proof (len_update_bounds d (Dict.set k0 v0 a)) as B.
    specialize (IH (Dict.set k0 v0 a) ND').
    rewrite len_set in IH, B.
    change (Dict.len ((k0, v0) :: d)) with (S (Dict.len d)).
    destruct (Dict.mem k0 a) eqn:M.
    + split; [lia |]. intros H. exfalso.
      apply (H k0); [now left | now apply mem_In].
    + apply mem_not_In in M. split.
      * intros E k [<- | Hk]; auto.
        assert (E' : Dict.len (Dict.update (Dict.set k0 v0 a) d) =
                     S (Dict.len a) + Dict.len d) by lia.
        intros Ha. apply (proj1 IH E' k Hk).
        apply In_keys_set. now right.
      * intros H.
        assert (E' : Dict.len (Dict.update (Dict.set k0 v0 a) d) =
                     S (Dict.len a) + Dict.len d).
        { apply (proj2 IH). intros k Hk Hs. apply In_keys_set in Hs.
          destruct Hs as [-> | Hs]; [contradiction |].
          apply (H k); [now right | assumption]. }
        lia.
Qed.

End UpdateFacts.

Lemma sum_counts_app d1 d2 :
  sum_counts (d1 ++ d2) = sum_counts d1 + sum_counts d2.
Proof.
  unfold sum_counts, Dict.items.
  induction d1 as [| [k n] d1 IH]; simpl; auto. rewrite IH. lia.
Qed.

Lemma find_recent_contributors_NoDup repository since d :
  snd (find_recent_contributors repository since) = Ok d ->
  NoDup (Dict.keys d).
Proof.
  assert (Hc : forall commits authors d',
            NoDup (Dict.keys authors) ->
            snd (collect commits authors) = Ok d' -> NoDup (Dict.keys d')).
  { induction commits as [| c rest IH]; intros authors d' ND H.
    - inversion H; subst. exact ND.
    - destruct (read_error_cases c) as [(name & email & Hn & He & _) | [x Hx]].
      + rewrite (collect_cons_ok _ _ _ _ _ Hn He) in H. cbn [snd] in H.
        eapply IH; [| exact H]. now apply store_NoDup.
      + rewrite (collect_cons_error _ _ _ _ Hx) in H. discriminate. }
  unfold find_recent_contributors. rewrite bind_log. cbn [snd].
  destruct (totalCount (get_commits repository since)) as [total | x].
  - rewrite bind_log. cbn [snd]. apply Hc. constructor.
  - destruct x; try discriminate. cbn. intros H. inversion H. constructor.
Qed.

(** ** The aggregation *)

Lemma aggregate_snoc done x :
  aggregate (done ++ [x]) = absorb (aggregate done) x.
Proof. unfold aggregate. now rewrite fold_left_app. Qed.

Lemma consistent_snoc done x : consistent (done ++ [x]) -> consistent done.
Proof.
  intros H r d1 d2 H1 H2. apply (H r); apply in_or_app; now left.
Qed.

Lemma well_keyed_snoc done x : well_keyed (done ++ [x]) -> well_keyed done.
Proof. intros H r d HI. apply (H r). apply in_or_app. now left. Qed.

Lemma processed_consistent github org past names done :
  processed github org past names = Ok done -> consistent done.
Proof.
  intros H r d1 d2 H1 H2.
  apply (processed_In _ _ _ _ _ H) in H1, H2.
  destruct H1 as (_ & R1 & HR1 & Hd1), H2 as (_ & R2 & HR2 & Hd2).
  congruence.
Qed.

Lemma processed_well_keyed github org past names done :
  processed github org past names = Ok done -> well_keyed done.
Proof.
  intros H r d HI. apply (processed_In _ _ _ _ _ H) in HI.
  destruct HI as (_ & R & _ & Hd).
  eapply find_recent_contributors_NoDup; eauto.
Qed.

(** What the state of the loop holds after the repositories [done]. *)
Lemma aggregate_inv done :
  consistent done -> well_keyed done ->
  NoDup (Dict.keys (fst (aggregate done))) /\
  NoDup (Dict.keys (snd (aggregate done))) /\
  (forall r n, Dict.get r (fst (aggregate done)) = Some n <->
               exists d, In (r, d) done /\ n = Dict.len d) /\
  (forall e, In e (Dict.keys (snd (aggregate done))) <->
             exists r d, In (r, d) done /\ In e (Dict.keys d)) /\
  Dict.len (snd (aggregate done)) <= sum_counts (fst (aggregate done)) /\
  (Dict.len (snd (aggregate done)) = sum_counts (fst (aggregate done)) <->
   ~ shared_email done).
Proof.
  induction done as [| [r d] done IH] using rev_ind; intros Hc Hw.
  - cbn. split; [constructor |]. split; [constructor |].
    split; [intros r n; split; [discriminate | intros (d & [] & _)] |].
    split; [intros e; split; [intros [] | intros (r & d & [] & _)] |].
    split; [lia |].
    split; [| reflexivity].
    intros _ (r1 & d1 & r2 & d2 & e & [] & _).
  - destruct (IH (consistent_snoc _ _ Hc) (well_keyed_snoc _ _ Hw))
      as (ND1 & ND2 & Hcount & Hkeys & Hle & Heq).
    clear IH. rewrite aggregate_snoc.
    set (st := aggregate done) in *. unfold absorb. cbn [fst snd].
    assert (Hlast : In (r, d) (done ++ [(r, d)]))
      by (apply in_or_app; right; now left).
    assert (NDd : NoDup (Dict.keys d)) by (apply (Hw r d Hlast)).
    split; [now apply NoDup_keys_set |].
    split; [now apply NoDup_keys_update |].
    split.
    { intros r0 n. destruct (string_dec r r0) as [<- | Hne].
      - rewrite get_set_same. split.
        + intros E. inversion E; subst. eauto.
        + intros (d0 & HI & ->). now rewrite (Hc r d0 d HI Hlast).
      - rewrite get_set_other by assumption. rewrite Hcount.
        split; intros (d0 & HI & ->); exists d0; split; auto.
        + apply in_or_app. now left.
        + apply in_app_or in HI. destruct HI as [HI | [E | []]]; auto.
          congruence. }
    split.
    { intros e. rewrite In_keys_update, Hkeys. split.
      - intros [(r0 & d0 & HI & He) | He].
        + exists r0, d0. split; auto. apply in_or_app. now left.
        + eauto.
      - intros (r0 & d0 & HI & He).
        apply in_app_or in HI. destruct HI as [HI | [E | []]].
        + left. eauto.
        + right. congruence. }
    destruct (Dict.get r (fst st)) as [n |] eqn:G.
    + (* [r] was seen before, with the same mapping *)
      apply Hcount in G. destruct G as (d0 & HI0 & ->).
      assert (d0 = d)
        by (apply (Hc r); [apply in_or_app; now left | exact Hlast]).
      subst d0.
      rewrite (set_same_noop r (Dict.len d) (fst st))
        by (apply Hcount; eauto).
      rewrite (len_update_subset d (snd st))
        by (intros k Hk; apply Hkeys; eauto).
      split; [exact Hle |]. rewrite Heq.
      assert (Hsame : forall p, In p (done ++ [(r, d)]) <-> In p done).
      { intros p. rewrite in_app_iff. simpl.
        split; [intros [? | [<- | []]]; auto | auto]. }
      unfold shared_email.
      split; intros H (r1 & d1 & r2 & d2 & e & H1 & H2 & Hr);
        apply H; exists r1, d1, r2, d2, e.
      * apply Hsame in H1, H2. auto.
      * split; [apply Hsame; exact H1 |].
        split; [apply Hsame; exact H2 | exact Hr].
    + (* [r] is new *)
      assert (Hnew : forall d0, ~ In (r, d0) done).
      { intros d0 HI.
        assert (E : Dict.get r (fst st) = Some (Dict.len d0))
          by (apply Hcount; eauto).
        congruence. }
      apply get_None_not_key in G.
      rewrite (set_absent r (Dict.len d) (fst st) G), sum_counts_app.
      change (sum_counts [(r, Dict.len d)]) with (Dict.len d + 0).
      pose proof (len_update_bounds d (snd st)) as B.
      pose proof (len_update_disjoint d (snd st) NDd) as D.
      split; [lia |].
      assert (Hshared :
        shared_email (done ++ [(r, d)]) <->
        shared_email done \/
        exists e, In e (Dict.keys d) /\ In e (Dict.keys (snd st))).
      { unfold shared_email. split.
        - intros (r1 & d1 & r2 & d2 & e & H1 & H2 & Hr & He1 & He2).
          apply in_app_or in H1, H2.
          destruct H1 as [H1 | [E1 | []]], H2 as [H2 | [E2 | []]].
          + left. exists r1, d1, r2, d2, e. auto.
          + inversion E2; subst. right. exists e. split; auto.
            apply Hkeys. eauto.
          + inversion E1; subst. right. exists e. split; auto.
            apply Hkeys. eauto.
          + congruence.
        - intros [(r1 & d1 & r2 & d2 & e & H1 & H2 & Hr) | (e & He & Hs)].
          + exists r1, d1, r2, d2, e.
            repeat split; try tauto; apply in_or_app; left; tauto.
          + apply Hkeys in Hs. destruct Hs as (r0 & d0 & HI & He0).
            exists r, d, r0, d0, e. repeat split; auto.
            * apply in_or_app. now left.
            * intros <-. now apply (Hnew d0). }
      rewrite Hshared. split.
      * intros E [Hs | (e & He & Hs)].
        -- apply Heq; [lia | exact Hs].
        -- assert (E' : Dict.len (Dict.update (snd st) d) =
                         Dict.len (snd st) + Dict.len d) by lia.
           apply (proj1 D E' e He Hs).
      * intros H.
        assert (E1 : Dict.len (snd st) = sum_counts (fst st))
          by (apply Heq; tauto).
        assert (E2 : Dict.len (Dict.update (snd st) d) =
                     Dict.len (snd st) + Dict.len d).
        { apply (proj2 D). intros k Hk Hs. apply H. right. eauto. }
        lia.
Qed.

(** Entries merged later win; mappings without the email keep it. *)
Lemma fold_absorb_get_other e post : forall st,
  well_keyed post ->
  (forall r d, In (r, d) post -> Dict.get e d = None) ->
  Dict.get e (snd (fold_left absorb post st)) = Dict.get e (snd st).
Proof.
  induction post as [| [r d] post IH]; intros st Hw H; [reflexivity |].
  simpl. rewrite IH.
  - unfold absorb. cbn [snd].
    rewrite get_update by (apply (Hw r d); now left).
    now rewrite (H r d) by now left.
  - intros r' d' HI. apply (Hw r' d'). now right.
  - intros r' d' HI. apply (H r' d'). now right.
Qed.

Lemma aggregate_get_last e v pre r d post :
  well_keyed (pre ++ (r, d) :: post) ->
  Dict.get e d = Some v ->
  (forall r' d', In (r', d') post -> Dict.get e d' = None) ->
  Dict.get e (snd (aggregate (pre ++ (r, d) :: post))) = Some v.
Proof.
  intros Hw Hd Hpost. unfold aggregate. rewrite fold_left_app. simpl.
  rewrite fold_absorb_get_other; auto.
  - unfold absorb. cbn [snd].
    rewrite get_update, Hd; auto.
    apply (Hw r d). apply in_or_app. right. now left.
  - intros r' d' HI. apply (Hw r' d'). apply in_or_app. right. now right.
Qed.

(** The last element of a list with a decidable property. *)
Lemma last_occurrence {A} (P : A -> Prop) (l : list A) :
  (forall x, P x \/ ~ P x) ->
  (exists x, In x l /\ P x) ->
  exists pre x post,
    l = pre ++ x :: post /\ P x /\ forall y, In y post -> ~ P y.
Proof.
  intros Hdec. induction l as [| a l IH]; intros (x & HI & Hx); [destruct HI |].
  assert (Hl : (exists y, In y l /\ P y) \/ ~ (exists y, In y l /\ P y)).
  { clear IH HI Hx. induction l as [| b l IHl].
    - right. intros (y & [] & _).
    - destruct (Hdec b) as [Hb | Hb].
      + left. exists b. split; auto. now left.
      + destruct IHl as [(y & Hy & HPy) | Hn].
        * left. exists y. split; auto. now right.
        * right. intros (y & [<- | Hy] & HPy); [contradiction |].
          apply Hn. eauto. }
  destruct Hl as [Hl | Hl].
  - destruct (IH Hl) as (pre & y & post & -> & Hy & Hpost).
    exists (a :: pre), y, post. auto.
  - destruct HI as [<- | HI].
    + exists [], a, l. repeat split; auto.
      intros y Hy HP. apply Hl. eauto.
    + exfalso. apply Hl. eauto.
Qed.

(** A report that was printed is the report of the final state. *)
Lemma main_printed github now org repos debug past rep :
  since_datetime now DAYS_AGO = Ok past ->
  In (Print rep) (fst (main github now org (Some repos) debug)) ->
  exists done,
    processed github org past (split "," repos) = Ok done /\
    rep = report_of (aggregate done).
Proof.
  intros Hs HI. apply In_Print_stdout in HI.
  rewrite (main_stdout _ _ _ _ _ _ Hs) in HI.
  destruct (processed github org past (split "," repos)) as [done | x];
    [| destruct HI].
  exists done. split; auto.
  destruct (Dict.truthy (fst (aggregate done))); [| destruct HI].
  destruct HI as [<- | []]. reflexivity.
Qed.

(** The merged mapping holds, for each email, the name given by the
    last repository, in processing order, whose mapping has it. *)
Lemma merged_get github org past names done e v :
  processed github org past names = Ok done ->
  (Dict.get e (snd (aggregate done)) = Some v <->
   exists pre repo post R d,
     names = pre ++ repo :: post /\
     get_repo github (repo_path org repo) = Ok R /\
     snd (find_recent_contributors R past) = Ok d /\
     Dict.get e d = Some v /\
     forall repo' R' d',
       In repo' post ->
       get_repo github (repo_path org repo') = Ok R' ->
       snd (find_recent_contributors R' past) = Ok d' ->
       Dict.get e d' = None).
Proof.
  intros Hp.
  pose proof (processed_consistent _ _ _ _ _ Hp) as Hc.
  pose proof (processed_well_keyed _ _ _ _ _ Hp) as Hw.
  assert (Hback : forall v',
    (exists pre repo post R d,
       names = pre ++ repo :: post /\
       get_repo github (repo_path org repo) = Ok R /\
       snd (find_recent_contributors R past) = Ok d /\
       Dict.get e d = Some v' /\
       forall repo' R' d',
         In repo' post ->
         get_repo github (repo_path org repo') = Ok R' ->
         snd (find_recent_contributors R' past) = Ok d' ->
         Dict.get e d' = None) ->
    Dict.get e (snd (aggregate done)) = Some v').
  { intros v' (pre & repo & post & R & d & Hsplit & HR & Hd & Hg & Hpost).
    subst names. rewrite processed_app in Hp.
    destruct (processed github org past pre) as [dpre | x]; [| discriminate].
    cbn [processed] in Hp. unfold repo_path in HR. rewrite HR, Hd in Hp.
    destruct (processed github org past post) as [dpost | x] eqn:Hpp;
      [| discriminate].
    inversion Hp; subst done.
    apply aggregate_get_last; auto.
    intros r' d' HI. apply (processed_In _ _ _ _ _ Hpp) in HI.
    destruct HI as (HI & R' & HR' & Hd'). eauto. }
  split; [| apply Hback].
  intros Hg.
  destruct (aggregate_inv done Hc Hw) as (_ & _ & _ & Hkeys & _).
  pose proof (get_Some_key _ _ _ Hg) as Hk. apply Hkeys in Hk.
  destruct Hk as (r & d & HI & He).
  apply (processed_In _ _ _ _ _ Hp) in HI.
  destruct HI as (HIn & R & HR & Hd).
  set (P := fun repo =>
    exists R d, get_repo github (repo_path org repo) = Ok R /\
                snd (find_recent_contributors R past) = Ok d /\
                Dict.get e d <> None).
  assert (Hdec : forall x, P x \/ ~ P x).
  { intros x. unfold P.
    destruct (get_repo github (repo_path org x)) as [R0 | y] eqn:E0.
    - destruct (snd (find_recent_contributors R0 past)) as [d0 | y] eqn:E1.
      + destruct (Dict.get e d0) as [v0 |] eqn:E2.
        * left. exists R0, d0. repeat split; auto. congruence.
        * right. intros (R1 & d1 & H1 & H2 & H3). congruence.
      + right. intros (R1 & d1 & H1 & H2 & H3). congruence.
    - right. intros (R1 & d1 & H1 & H2 & H3). congruence. }
  destruct (last_occurrence P names Hdec) as
    (pre & x & post & Hsplit & (Rx & dx & HRx & Hdx & Hgx) & Hpost).
  { exists r. split; auto. exists R, d. repeat split; auto.
    intros Hn. apply get_None_not_key in Hn. contradiction. }
  destruct (Dict.get e dx) as [vx |] eqn:Egx; [| congruence].
  assert (Hex : exists pre repo post R d,
       names = pre ++ repo :: post /\
       get_repo github (repo_path org repo) = Ok R /\
       snd (find_recent_contributors R past) = Ok d /\
       Dict.get e d = Some vx /\
       forall repo' R' d',
         In repo' post ->
         get_repo github (repo_path org repo') = Ok R' ->
         snd (find_recent_contributors R' past) = Ok d' ->
         Dict.get e d' = None).
  { exists pre, x, post, Rx, dx. repeat split; auto.
    intros repo' R' d' HI' HR' Hd'.
    destruct (Dict.get e d') as [v' |] eqn:E'; auto.
    exfalso. apply (Hpost repo' HI'). exists R', d'.
    repeat split; auto. congruence. }
  pose proof (Hback vx Hex) as Hvx.
  assert (vx = v) by congruence. subst vx. exact Hex.
Qed.

(** C5. In the report [main] prints: every repository that was looked
    up and collected is reported with the size of its own mapping, and
    nothing else is reported; the [contributors] map holds, for each
    email, the name from the last repository in processing order whose
    mapping has that email (later repositories overwrite earlier
    ones); [num_unique_contributors] is the size of that map, whose
    keys are distinct and in strictly ascending order.  On the example
    of two repositories the report is the expected one. *)
Theorem main_aggregates :
  (forall github now org repos debug past rep,
     since_datetime now DAYS_AGO = Ok past ->
     In (Print rep) (fst (main github now org (Some repos) debug)) ->
     (forall repo R d,
        In repo (split "," repos) ->
        get_repo github (repo_path org repo) = Ok R ->
        snd (find_recent_contributors R past) = Ok d ->
        Dict.get repo (repositories rep) = Some (Dict.len d)) /\
     (forall repo n,
        Dict.get repo (repositories rep) = Some n ->
        exists R d,
          In repo (split "," repos) /\
          get_repo github (repo_path org repo) = Ok R /\
          snd (find_recent_contributors R past) = Ok d /\
          n = Dict.len d) /\
     (forall e v,
        Dict.get e (contributors rep) = Some v <->
        exists pre repo post R d,
          split "," repos = pre ++ repo :: post /\
          get_repo github (repo_path org repo) = Ok R /\
          snd (find_recent_contributors R past) = Ok d /\
          Dict.get e d = Some v /\
          forall repo' R' d',
            In repo' post ->
            get_repo github (repo_path org repo') = Ok R' ->
            snd (find_recent_contributors R' past) = Ok d' ->
            Dict.get e d' = None) /\
     NoDup (Dict.keys (contributors rep)) /\
     num_unique_contributors rep = Dict.len (contributors rep) /\
     StronglySorted string_lt (Dict.keys (contributors rep))) /\
  stdout (fst (main two_repositories noon ORG_NAME (Some "r1,r2") false)) =
    [two_repositories_report].
Proof.
  split; [| reflexivity].
  intros github now org repos debug past rep Hs HP.
  destruct (main_printed _ _ _ _ _ _ _ Hs HP) as (done & Hp & ->).
  pose proof (processed_consistent _ _ _ _ _ Hp) as Hc.
  pose proof (processed_well_keyed _ _ _ _ _ Hp) as Hw.
  destruct (aggregate_inv done Hc Hw) as (_ & ND2 & Hcount & _).
  destruct (report_contributors (aggregate done) ND2)
    as (_ & _ & NDc & Hss & Hget & _).
  split.
  { intros repo R d HI HR Hd.
    destruct (processed_complete _ _ _ _ _ Hp repo R HI HR) as (d' & Hd' & HI').
    assert (d' = d) by congruence. subst d'.
    apply Hcount. eauto. }
  split.
  { intros repo n Hg. apply Hcount in Hg. destruct Hg as (d & HI & ->).
    apply (processed_In _ _ _ _ _ Hp) in HI.
    destruct HI as (HI & R & HR & Hd). exists R, d. auto. }
  split.
  { intros e v. rewrite Hget. now apply merged_get. }
  split; [exact NDc |]. split; [reflexivity | exact Hss].
Qed.

Lemma main_aggregates_witness :
  (forall repo R d,
     In repo (split "," "r1,r2") ->
     get_repo two_repositories (repo_path ORG_NAME repo) = Ok R ->
     snd (find_recent_contributors R noon_past) = Ok d ->
     Dict.get repo (repositories two_repositories_report) = Some (Dict.len d)) /\
  (forall repo n,
     Dict.get repo (repositories two_repositories_report) = Some n ->
     exists R d,
       In repo (split "," "r1,r2") /\
       get_repo two_repositories (repo_path ORG_NAME repo) = Ok R /\
       snd (find_recent_contributors R noon_past) = Ok d /\
       n = Dict.len d) /\
  (forall e v,
     Dict.get e (contributors two_repositories_report) = Some v <->
     exists pre repo post R d,
       split "," "r1,r2" = pre ++ repo :: post /\
       get_repo two_repositories (repo_path ORG_NAME repo) = Ok R /\
       snd (find_recent_contributors R noon_past) = Ok d /\
       Dict.get e d = Some v /\
       forall repo' R' d',
         In repo' post ->
         get_repo two_repositories (repo_path ORG_NAME repo') = Ok R' ->
         snd (find_recent_contributors R' noon_past) = Ok d' ->
         Dict.get e d' = None) /\
  NoDup (Dict.keys (contributors two_repositories_report)) /\
  num_unique_contributors two_repositories_report =
    Dict.len (contributors two_repositories_report) /\
  StronglySorted string_lt (Dict.keys (contributors two_repositories_report)).
Proof.
  apply (proj1 main_aggregates two_repositories noon ORG_NAME "r1,r2"
           false noon_past two_repositories_report).
  - reflexivity.
  - vm_compute. do 7 right. left. reflexivity.
Defined.

(** The state of the loop, without any assumption on the mappings. *)
Lemma fold_absorb_NoDup done : forall st,
  NoDup (Dict.keys (snd st)) ->
  NoDup (Dict.keys (snd (fold_left absorb done st))).
Proof.
  induction done as [| rd done IH]; intros st ND; [exact ND |].
  simpl. apply IH. unfold absorb. cbn [snd].
  now apply NoDup_keys_update.
Qed.

Lemma aggregate_NoDup done : NoDup (Dict.keys (snd (aggregate done))).
Proof. apply fold_absorb_NoDup. constructor. Qed.

(** C10, as the code has it.  When every repository name comes with
    one mapping only (no name is listed twice, or a name listed twice
    is answered with the same mapping each time),
    [num_unique_contributors] is at most the sum of the counts of the
    [repositories] map, and equals it exactly when no email occurs in
    the mappings of two different repositories.  This is stated on the
    state of the loop after any such sequence of mappings, each of
    them holding an email once as a dictionary does, and on the report
    [main] prints for a list without a repeated name. *)
Theorem unique_contributors_le_sum :
  (forall done,
     consistent done -> well_keyed done ->
     num_unique_contributors (report_of (aggregate done)) <=
       sum_counts (repositories (report_of (aggregate done))) /\
     (num_unique_contributors (report_of (aggregate done)) =
        sum_counts (repositories (report_of (aggregate done))) <->
      ~ shared_email done)) /\
  (forall github now org repos debug past rep,
     since_datetime now DAYS_AGO = Ok past ->
     NoDup (split "," repos) ->
     In (Print rep) (fst (main github now org (Some repos) debug)) ->
     num_unique_contributors rep <= sum_counts (repositories rep) /\
     (num_unique_contributors rep = sum_counts (repositories rep) <->
      ~ exists repo1 repo2 R1 R2 d1 d2 e,
          In repo1 (split "," repos) /\ In repo2 (split "," repos) /\
          repo1 <> repo2 /\
          get_repo github (repo_path org repo1) = Ok R1 /\
          get_repo github (repo_path org repo2) = Ok R2 /\
          snd (find_recent_contributors R1 past) = Ok d1 /\
          snd (find_recent_contributors R2 past) = Ok d2 /\
          In e (Dict.keys d1) /\ In e (Dict.keys d2))).
Proof.
  assert (Hagg : forall done,
     consistent done -> well_keyed done ->
     num_unique_contributors (report_of (aggregate done)) <=
       sum_counts (repositories (report_of (aggregate done))) /\
     (num_unique_contributors (report_of (aggregate done)) =
        sum_counts (repositories (report_of (aggregate done))) <->
      ~ shared_email done)).
  { intros done Hc Hw.
    destruct (aggregate_inv done Hc Hw) as (_ & ND2 & _ & _ & Hle & Heq).
    destruct (report_contributors (aggregate done) ND2)
      as (_ & _ & _ & _ & _ & Hnum).
    rewrite Hnum. change (repositories (report_of (aggregate done)))
      with (fst (aggregate done)).
    split; assumption. }
  split; [exact Hagg |].
  intros github now org repos debug past rep Hs _ HP.
  destruct (main_printed _ _ _ _ _ _ _ Hs HP) as (done & Hp & ->).
  destruct (Hagg done (processed_consistent _ _ _ _ _ Hp)
              (processed_well_keyed _ _ _ _ _ Hp)) as [Hle Heq].
  split; [exact Hle |]. rewrite Heq.
  pose proof (processed_In _ _ _ _ _ Hp) as HIn.
  unfold shared_email. split; intros H Hex; apply H; clear H.
  - destruct Hex as (repo1 & repo2 & R1 & R2 & d1 & d2 & e & H1 & H2 & Hne &
                     HR1 & HR2 & Hd1 & Hd2 & He1 & He2).
    exists repo1, d1, repo2, d2, e.
    split; [apply HIn; eauto |]. split; [apply HIn; eauto |]. auto.
  - destruct Hex as (r1 & d1 & r2 & d2 & e & H1 & H2 & Hne & He1 & He2).
    apply HIn in H1, H2.
    destruct H1 as (H1 & R1 & HR1 & Hd1), H2 as (H2 & R2 & HR2 & Hd2).
    exists r1, r2, R1, R2, d1, d2, e. repeat split; auto.
Qed.

Lemma unique_contributors_le_sum_witness :
  (num_unique_contributors (report_of (aggregate two_mappings)) <=
     sum_counts (repositories (report_of (aggregate two_mappings))) /\
   (num_unique_contributors (report_of (aggregate two_mappings)) =
      sum_counts (repositories (report_of (aggregate two_mappings))) <->
    ~ shared_email two_mappings)) /\
  (num_unique_contributors two_repositories_report <=
     sum_counts (repositories two_repositories_report) /\
   (num_unique_contributors two_repositories_report =
      sum_counts (repositories two_repositories_report) <->
    ~ exists repo1 repo2 R1 R2 d1 d2 e,
        In repo1 (split "," "r1,r2") /\ In repo2 (split "," "r1,r2") /\
        repo1 <> repo2 /\
        get_repo two_repositories (repo_path ORG_NAME repo1) = Ok R1 /\
        get_repo two_repositories (repo_path ORG_NAME repo2) = Ok R2 /\
        snd (find_recent_contributors R1 noon_past) = Ok d1 /\
        snd (find_recent_contributors R2 noon_past) = Ok d2 /\
        In e (Dict.keys d1) /\ In e (Dict.keys d2))).
Proof.
  split.
  - apply (proj1 unique_contributors_le_sum two_mappings).
    + intros r d1 d2 [E1 | [E1 | []]] [E2 | [E2 | []]]; congruence.
    + intros r d [E | [E | []]]; inversion E; subst;
        repeat constructor; simpl; intuition discriminate.
  - apply (proj2 unique_contributors_le_sum two_repositories noon ORG_NAME
             "r1,r2" false noon_past two_repositories_report).
    + reflexivity.
    + repeat constructor; simpl; intuition discriminate.
    + vm_compute. do 7 right. left. reflexivity.
Defined.

(** C10, as stated, fails: [r1] is named twice, answered the first
    time with two authors and the second time as an empty repository;
    the report then counts [r1] as 0 while two contributors were
    merged. *)
Lemma unique_contributors_exceed_sum :
  report_of (aggregate repeated_name_mappings) =
    {| repositories := [("r1", 0)];
       contributors := [("a@x.com", "bob"); ("c@y.com", "carol")];
       num_unique_contributors := 2 |} /\
  ~ (num_unique_contributors (report_of (aggregate repeated_name_mappings)) <=
     sum_counts (repositories (report_of (aggregate repeated_name_mappings)))).
Proof.
  split; [reflexivity |]. vm_compute. intros H.
  inversion H.
Qed.

(** * Further properties *)

(** ** [since_datetime] on any number of days *)

Lemma since_datetime_out_of_range now days :
  in_range now -> ~ in_range (now - days * DAY) ->
  since_datetime now days = Raise OverflowError.
Proof.
  unfold in_range, since_datetime, timedelta, datetime_sub, today.
  unfold MAX_MICROS, DAY. cbn [micros tzinfo]. intros Hr Hn.
  destruct (Z.leb_spec (Z.abs days) 999999999) as [_ | Habs];
    [| reflexivity].
  destruct (Z.leb_spec 0 (now - days * (24 * 60 * 60 * 1000000)));
    [| reflexivity].
  destruct (Z.leb_spec (now - days * (24 * 60 * 60 * 1000000))
              (3652059 * (24 * 60 * 60 * 1000000) - 1)); [lia | reflexivity].
Qed.

Lemma since_datetime_in_range now days :
  in_range now -> in_range (now - days * DAY) ->
  since_datetime now days =
  Ok {| micros := now - days * DAY; tzinfo := None |}.
Proof.
  unfold in_range, since_datetime, timedelta, datetime_sub, today.
  unfold MAX_MICROS, DAY. cbn [micros tzinfo]. intros Hr Hn.
  destruct (Z.leb_spec (Z.abs days) 999999999) as [_ | Habs]; [| lia].
  destruct (Z.leb_spec 0 (now - days * (24 * 60 * 60 * 1000000)));
    [| lia].
  destruct (Z.leb_spec (now - days * (24 * 60 * 60 * 1000000))
              (3652059 * (24 * 60 * 60 * 1000000) - 1)); [| lia].
  cbn [andb]. now rewrite fromisoformat_isoformat.
Qed.

(** X1. For any integer number of days, negative ones included: when
    the clock reading minus [days] times 24 hours lies between
    0001-01-01T00:00:00 and 9999-12-31T23:59:59.999999,
    [since_datetime] returns that instant, naive, and it is later than
    the clock reading exactly when [days] is negative; otherwise it
    raises [OverflowError] and nothing else. *)
Theorem since_datetime_any_days :
  forall now days,
    in_range now ->
    (in_range (now - days * DAY) ->
       since_datetime now days =
         Ok {| micros := now - days * DAY; tzinfo := None |} /\
       ((now < now - days * DAY)%Z <-> (days < 0)%Z)) /\
    (~ in_range (now - days * DAY) ->
       since_datetime now days = Raise OverflowError).
Proof.
  intros now days Hr. split.
  - intros Hi. split; [now apply since_datetime_in_range |].
    unfold DAY. lia.
  - now apply since_datetime_out_of_range.
Qed.

Lemma since_datetime_any_days_witness :
  since_datetime noon (-1) =
    Ok {| micros := noon - (-1) * DAY; tzinfo := None |} /\
  ((noon < noon - (-1) * DAY)%Z <-> (-1 < 0)%Z).
Proof.
  assert (Hr : in_range noon)
    by (unfold in_range; vm_compute; intuition discriminate).
  assert (Hi : in_range (noon - (-1) * DAY))
    by (unfold in_range; vm_compute; intuition discriminate).
  exact (proj1 (since_datetime_any_days noon (-1) Hr) Hi).
Defined.

(** ** Exceptions other than [GithubException] *)

Lemma processed_raises github org past before repo after e :
  (forall repo', In repo' before ->
     (exists data,
        get_repo github (repo_path org repo') = Raise (GithubException data)) \/
     (exists R' d,
        get_repo github (repo_path org repo') = Ok R' /\
        snd (find_recent_contributors R' past) = Ok d)) ->
  (forall data, e <> GithubException data) ->
  get_repo github (repo_path org repo) = Raise e \/
  (exists R, get_repo github (repo_path org repo) = Ok R /\
             snd (find_recent_contributors R past) = Raise e) ->
  processed github org past (before ++ repo :: after) = Raise e.
Proof.
  intros Hb He Hr. rewrite processed_app.
  destruct (processed_quiet _ _ _ _ Hb) as [done ->].
  cbn [processed]. unfold repo_path in Hr.
  destruct Hr as [Hr | (R & HR & Hd)].
  - rewrite Hr. destruct e; try reflexivity. now elim (He data).
  - now rewrite HR, Hd.
Qed.

(** X2. Only [GithubException] is handled.  When probing the commit
    count raises another exception, the collector ends with it right
    after its first log line; and when a lookup or a probe raises
    another exception, [main] ends with it and prints nothing,
    whatever the repositories before it gave. *)
Theorem other_exceptions_propagate :
  (forall repository since e,
     totalCount (get_commits repository since) = Raise e ->
     (forall data, e <> GithubException data) ->
     find_recent_contributors repository since =
       ([Log INFO (AnalyzingCommits (full_name repository))], Raise e)) /\
  (forall github now org repos debug past before repo after e,
     since_datetime now DAYS_AGO = Ok past ->
     split "," repos = before ++ repo :: after ->
     (forall repo', In repo' before ->
        (exists data,
           get_repo github (repo_path org repo') =
             Raise (GithubException data)) \/
        (exists R' d,
           get_repo github (repo_path org repo') = Ok R' /\
           snd (find_recent_contributors R' past) = Ok d)) ->
     (forall data, e <> GithubException data) ->
     get_repo github (repo_path org repo) = Raise e \/
     (exists R, get_repo github (repo_path org repo) = Ok R /\
                totalCount (get_commits R past) = Raise e) ->
     snd (main github now org (Some repos) debug) = Raise e /\
     stdout (fst (main github now org (Some repos) debug)) = []).
Proof.
  assert (Hprobe : forall repository since e,
     totalCount (get_commits repository since) = Raise e ->
     (forall data, e <> GithubException data) ->
     find_recent_contributors repository since =
       ([Log INFO (AnalyzingCommits (full_name repository))], Raise e)).
  { intros repository since e Ht He. unfold find_recent_contributors.
    rewrite Ht. destruct e; try reflexivity. now elim (He data). }
  split; [exact Hprobe |].
  intros github now org repos debug past before repo after e
    Hs Hsplit Hb He Hr.
  rewrite (main_stdout _ _ _ _ _ _ Hs), (main_snd _ _ _ _ _ _ Hs), Hsplit.
  rewrite (processed_raises github org past before repo after e Hb He).
  - split; reflexivity.
  - destruct Hr as [Hr | (R & HR & Ht)]; [now left | right].
    exists R. split; auto. now rewrite (Hprobe R past e Ht He).
Qed.

Lemma other_exceptions_propagate_witness :
  find_recent_contributors
    (repository_of "o/r"
       {| totalCount := Raise (OtherError "ConnectionError");
          elements := [] |}) noon_past =
    ([Log INFO (AnalyzingCommits "o/r")],
     Raise (OtherError "ConnectionError")) /\
  snd (main unreachable noon ORG_NAME (Some "r1,r2") false) =
    Raise (OtherError "ConnectionError") /\
  stdout (fst (main unreachable noon ORG_NAME (Some "r1,r2") false)) = [].
Proof.
  split.
  - apply (proj1 other_exceptions_propagate
             (repository_of "o/r"
                {| totalCount := Raise (OtherError "ConnectionError");
                   elements := [] |}) noon_past
             (OtherError "ConnectionError")).
    + reflexivity.
    + intros data. discriminate.
  - apply (proj2 other_exceptions_propagate
             unreachable noon ORG_NAME "r1,r2" false noon_past
             [] "r1" ["r2"] (OtherError "ConnectionError")).
    + reflexivity.
    + reflexivity.
    + intros repo' [].
    + intros data. discriminate.
    + left. reflexivity.
Defined.

(** ** What [main] prints, and when *)

(** X3. [main] prints at most one report, as the last thing it does,
    and only in a run that ends normally: either nothing is printed,
    or the trace is a trace without output followed by the one report,
    and the run returns. *)
Theorem main_prints_last :
  forall github now org repos debug,
    stdout (fst (main github now org repos debug)) = [] \/
    exists t rep,
      fst (main github now org repos debug) = t ++ [Print rep] /\
      stdout t = [] /\
      snd (main github now org repos debug) = Ok tt.
Proof.
  intros github now org repos debug.
  destruct (since_datetime now DAYS_AGO) as [past | e] eqn:Hs.
  - destruct repos as [repos |].
    + rewrite (main_with_repos _ _ _ _ _ _ Hs).
      pose proof (main_loop_stdout github org past (split "," repos)
                    (Dict.empty, Dict.empty)) as Hout.
      destruct (main_loop github org past (split "," repos)
                  (Dict.empty, Dict.empty)) as [t [st | e]];
        cbn [fst] in Hout.
      * unfold bind. destruct (Dict.truthy (fst st)).
        -- right. exists t, (report_of st). repeat split; auto.
        -- left. cbn. now rewrite app_nil_r.
      * left. exact Hout.
    + left. unfold main. rewrite Hs. reflexivity.
  - left. unfold main. rewrite Hs. reflexivity.
Qed.

(** ** Failed lookups *)

Lemma main_loop_all_lookups_fail github org past names : forall st,
  (forall repo, In repo names ->
     exists data,
       get_repo github (repo_path org repo) = Raise (GithubException data)) ->
  main_loop github org past names st =
  (map (Log ERROR) (flat_map (lookup_error_messages github org) names),
   Ok st).
Proof.
  induction names as [| repo rest IH]; intros st H; [reflexivity |].
  destruct (H repo (or_introl eq_refl)) as [data E].
  cbn [main_loop flat_map]. unfold lookup_error_messages at 1.
  unfold repo_path in E. unfold repo_path at 1. rewrite E.
  rewrite bind_log. cbn [fst snd]. rewrite bind_log. cbn [fst snd].
  rewrite IH by (intros r Hr; apply H; now right).
  reflexivity.
Qed.

(** X4. When every lookup raises [GithubException], the run still
    ends normally, with exit status zero and nothing printed; all it
    does is log, for each name in order, the two error lines of a
    failed lookup. *)
Theorem main_all_lookups_fail :
  forall github now org repos debug past,
    since_datetime now DAYS_AGO = Ok past ->
    (forall repo, In repo (split "," repos) ->
       exists data,
         get_repo github (repo_path org repo) = Raise (GithubException data)) ->
    main github now org (Some repos) debug =
      (map (Log ERROR)
         (flat_map (lookup_error_messages github org) (split "," repos)),
       Ok tt) /\
    stdout (fst (main github now org (Some repos) debug)) = [] /\
    exit_status (snd (main github now org (Some repos) debug)) = 0%Z.
Proof.
  intros github now org repos debug past Hs H.
  assert (E : main github now org (Some repos) debug =
      (map (Log ERROR)
         (flat_map (lookup_error_messages github org) (split "," repos)),
       Ok tt)).
  { rewrite (main_with_repos _ _ _ _ _ _ Hs).
    rewrite (main_loop_all_lookups_fail _ _ _ _ _ H).
    cbn. now rewrite app_nil_r. }
  rewrite E. cbn [fst snd exit_status].
  split; [reflexivity |]. split; [| reflexivity].
  clear. induction (flat_map (lookup_error_messages github org)
                      (split "," repos)); simpl; auto.
Qed.

Lemma main_all_lookups_fail_witness :
  main no_repository noon ORG_NAME (Some "r1,r2") false =
    (map (Log ERROR)
       (flat_map (lookup_error_messages no_repository ORG_NAME)
          (split "," "r1,r2")),
     Ok tt) /\
  stdout (fst (main no_repository noon ORG_NAME (Some "r1,r2") false)) = [] /\
  exit_status (snd (main no_repository noon ORG_NAME (Some "r1,r2") false)) =
    0%Z.
Proof.
  apply (main_all_lookups_fail no_repository noon ORG_NAME "r1,r2" false
           noon_past).
  - reflexivity.
  - intros repo _. exists "404 Not Found". reflexivity.
Defined.

(** ** The log without [--debug] *)

Lemma emitted_app threshold t1 t2 :
  emitted threshold (t1 ++ t2) = emitted threshold t1 ++ emitted threshold t2.
Proof. apply flat_map_app. Qed.

Lemma emitted_collect commits : forall authors,
  emitted ERROR (fst (collect commits authors)) = [].
Proof.
  induction commits as [| c rest IH]; intros authors; [reflexivity |].
  destruct (read_error_cases c) as [(name & email & Hn & He & _) | [x Hx]].
  - rewrite (collect_cons_ok _ _ _ _ _ Hn He). cbn [fst].
    change (Log DEBUG (FoundAuthor (lower name) email) :: ?t)
      with ([Log DEBUG (FoundAuthor (lower name) email)] ++ t).
    rewrite !emitted_app, IH.
    destruct (items_contains (email, lower name) authors); reflexivity.
  - now rewrite (collect_cons_error _ _ _ _ Hx).
Qed.

Lemma emitted_find_recent_contributors repository since :
  emitted ERROR (fst (find_recent_contributors repository since)) = [].
Proof.
  unfold find_recent_contributors. rewrite bind_log. cbn [fst].
  destruct (totalCount (get_commits repository since)) as [total | x].
  - rewrite bind_log. cbn [fst]. cbn [emitted flat_map level_no Nat.leb app].
    apply emitted_collect.
  - destruct x; reflexivity.
Qed.

Lemma main_loop_emitted github org past names : forall st done,
  processed github org past names = Ok done ->
  emitted ERROR (fst (main_loop github org past names st)) =
  flat_map (lookup_error_messages github org) names.
Proof.
  induction names as [| repo rest IH]; intros st done H; [reflexivity |].
  cbn [main_loop processed flat_map] in *.
  unfold lookup_error_messages at 1. unfold repo_path.
  destruct (get_repo github (org ++ "/" ++ repo)%string) as [R | x].
  - rewrite bind_fst, emitted_app, emitted_find_recent_contributors.
    destruct (snd (find_recent_contributors R past)) as [d | x];
      [| discriminate].
    destruct (processed github org past rest) as [done0 | x] eqn:Hp;
      [| discriminate].
    cbn [app]. eapply IH. reflexivity.
  - destruct x; try discriminate.
    rewrite bind_log. cbn [fst]. rewrite bind_log. cbn [fst].
    change (Log ERROR (CouldNotFind org repo)
              :: Log ERROR (ErrorObject (GithubException data)) :: ?t)
      with ([Log ERROR (CouldNotFind org repo);
             Log ERROR (ErrorObject (GithubException data))] ++ t).
    rewrite emitted_app. erewrite IH by eassumption. reflexivity.
Qed.

(** X5. Without [--debug] the logger lets only errors through.  The
    collector never logs an error, so it is silent then, its warnings
    about duplicates and empty repositories included; and in a run of
    [main] that ends normally the log holds exactly the two error
    lines of each failed lookup, in the order of the names. *)
Theorem log_without_debug :
  (forall repository since,
     emitted (debug_level false)
       (fst (find_recent_contributors repository since)) = []) /\
  (forall github now org repos past,
     since_datetime now DAYS_AGO = Ok past ->
     snd (main github now org (Some repos) false) = Ok tt ->
     emitted (debug_level false)
       (fst (main github now org (Some repos) false)) =
     flat_map (lookup_error_messages github org) (split "," repos)).
Proof.
  split; [intros; apply emitted_find_recent_contributors |].
  intros github now org repos past Hs Hok.
  rewrite (main_snd _ _ _ _ _ _ Hs) in Hok.
  destruct (processed github org past (split "," repos)) as [done | x] eqn:Hp;
    [| discriminate].
  rewrite (main_with_repos _ _ _ _ _ _ Hs), bind_fst, emitted_app.
  cbn [debug_level].
  rewrite (main_loop_emitted _ _ _ _ _ _ Hp).
  destruct (snd (main_loop github org past (split "," repos)
                   (Dict.empty, Dict.empty))) as [st | x].
  - destruct (Dict.truthy (fst st)); cbn; now rewrite app_nil_r.
  - cbn. now rewrite app_nil_r.
Qed.

Lemma log_without_debug_witness :
  emitted (debug_level false)
    (fst (main two_repositories noon ORG_NAME (Some "r1,r3,r2") false)) =
  flat_map (lookup_error_messages two_repositories ORG_NAME)
    (split "," "r1,r3,r2").
Proof.
  apply (proj2 log_without_debug two_repositories noon ORG_NAME "r1,r3,r2"
           noon_past); reflexivity.
Defined.

(** ** Empty repositories in the report *)

(** X6. A repository that is found but has no commits (probing its
    commit count raises [GithubException]) counts as processed: in a
    run that ends normally the report is printed, once, and lists that
    repository with the count zero. *)
Theorem empty_repository_reported :
  forall github now org repos debug past repo R data,
    since_datetime now DAYS_AGO = Ok past ->
    snd (main github now org (Some repos) debug) = Ok tt ->
    In repo (split "," repos) ->
    get_repo github (repo_path org repo) = Ok R ->
    totalCount (get_commits R past) = Raise (GithubException data) ->
    exists rep,
      stdout (fst (main github now org (Some repos) debug)) = [rep] /\
      Dict.get repo (repositories rep) = Some 0.
Proof.
  intros github now org repos debug past repo R data Hs Hok HI HR Ht.
  rewrite (main_snd _ _ _ _ _ _ Hs) in Hok.
  rewrite (main_stdout _ _ _ _ _ _ Hs).
  destruct (processed github org past (split "," repos)) as [done | x] eqn:Hp;
    [| discriminate].
  destruct (processed_complete _ _ _ _ _ Hp repo R HI HR) as (d & Hd & HId).
  assert (d = Dict.empty).
  { unfold find_recent_contributors in Hd. rewrite Ht in Hd.
    cbn in Hd. congruence. }
  subst d.
  unfold aggregate at 1. rewrite fold_absorb_truthy.
  destruct done as [| x done]; [destruct HId |].
  exists (report_of (aggregate (x :: done))). split; [reflexivity |].
  destruct (aggregate_inv (x :: done)
              (processed_consistent _ _ _ _ _ Hp)
              (processed_well_keyed _ _ _ _ _ Hp)) as (_ & _ & Hcount & _).
  change (repositories (report_of (aggregate (x :: done))))
    with (fst (aggregate (x :: done))).
  apply Hcount. exists (@Dict.empty string). split; auto.
Qed.

Lemma empty_repository_reported_witness :
  exists rep,
    stdout (fst (main one_empty_repository noon ORG_NAME (Some "r1") false)) =
      [rep] /\
    Dict.get "r1" (repositories rep) = Some 0.
Proof.
  apply (empty_repository_reported one_empty_repository noon ORG_NAME "r1"
           false noon_past "r1"
           (repository_of "bradleyfrank/r1" empty_listing)
           "409 Git Repository is empty.").
  - reflexivity.
  - reflexivity.
  - left. reflexivity.
  - reflexivity.
  - reflexivity.
Defined.

(** ** The entries of the collected mapping *)

Lemma In_set_inv {V} k (v : V) k' v' (d : dict V) :
  In (k', v') (Dict.set k v d) -> (k', v') = (k, v) \/ In (k', v') d.
Proof.
  induction d as [| [k0 v0] d IH]; simpl.
  - intros [E | []]. left. congruence.
  - destruct (String.eqb_spec k k0) as [-> | Hne]; simpl.
    + intros [E | HI]; auto.
    + intros [E | HI]; auto. destruct (IH HI); auto.
Qed.

Lemma fold_store_keys pairs : forall authors e,
  In e (Dict.keys (fold_left store pairs authors)) <->
  In e (Dict.keys authors) \/ In e (map fst pairs).
Proof.
  induction pairs as [| p pairs IH]; intros authors e; simpl.
  - tauto.
  - rewrite IH, store_assign, In_keys_set. intuition.
Qed.

Lemma fold_store_entries pairs : forall authors e v,
  In (e, v) (fold_left store pairs authors) ->
  In (e, v) authors \/ exists n, In (e, n) pairs /\ v = lower n.
Proof.
  induction pairs as [| [e0 n0] pairs IH]; intros authors e v H; simpl in *.
  - now left.
  - apply IH in H. destruct H as [H | (n & Hn & ->)].
    + rewrite store_assign in H. apply In_set_inv in H. cbn [fst snd] in H.
      destruct H as [E | H]; [| now left].
      inversion E; subst. right. exists n0. split; auto.
    + right. exists n. split; auto.
Qed.

(** X7. When every commit reads without error, the mapping returned
    has exactly the emails of the commits as keys, each once and
    spelled as in the commit; every value is the lowercased name of a
    commit with that email; and the mapping has at most as many
    entries as there are commits.  Two commits by Émile Z, under
    emails that differ by letter case only, give two entries, both
    with the name émile z. *)
Theorem find_recent_contributors_entries :
  (forall repository since total pairs,
     totalCount (get_commits repository since) = Ok total ->
     elements (get_commits repository since) = map commit_of pairs ->
     exists authors,
       snd (find_recent_contributors repository since) = Ok authors /\
       NoDup (Dict.keys authors) /\
       (forall e, In e (Dict.keys authors) <-> In e (map fst pairs)) /\
       (forall e v, In (e, v) (Dict.items authors) ->
          exists n, In (e, n) pairs /\ v = lower n) /\
       Dict.len authors <= List.length pairs) /\
  (forall name since,
     snd (find_recent_contributors
            (repository_of name
               (listing_of [("e@x.com", "Émile Z"); ("E@x.com", "ÉMILE Z")]))
            since) =
     Ok [("e@x.com", "émile z"); ("E@x.com", "émile z")]).
Proof.
  split; [| reflexivity].
  intros repository since total pairs Ht He.
  exists (fold_left store pairs Dict.empty).
  assert (ND : NoDup (Dict.keys (fold_left store pairs Dict.empty)))
    by (apply fold_store_NoDup; constructor).
  assert (Hk : forall e, In e (Dict.keys (fold_left store pairs Dict.empty))
                         <-> In e (map fst pairs)).
  { intros e. rewrite fold_store_keys. simpl. tauto. }
  split; [eapply find_recent_contributors_pairs; eauto |].
  split; [exact ND |]. split; [exact Hk |]. split.
  - intros e v HI. apply fold_store_entries in HI.
    destruct HI as [[] | (n & Hn & ->)]. eauto.
  - unfold Dict.len.
    rewrite <- (length_map fst (fold_left store pairs Dict.empty)).
    rewrite <- (length_map fst pairs).
    apply NoDup_incl_length; [exact ND |].
    intros e. apply Hk.
Qed.

Lemma find_recent_contributors_entries_witness :
  exists authors,
    snd (find_recent_contributors
           (repository_of "o/r"
              (listing_of [("e@x.com", "Émile Z"); ("E@x.com", "ÉMILE Z");
                           ("e@x.com", "émile z")]))
           noon_past) = Ok authors /\
    NoDup (Dict.keys authors) /\
    (forall e, In e (Dict.keys authors) <->
               In e (map fst [("e@x.com", "Émile Z"); ("E@x.com", "ÉMILE Z");
                              ("e@x.com", "émile z")])) /\
    (forall e v, In (e, v) (Dict.items authors) ->
       exists n, In (e, n) [("e@x.com", "Émile Z"); ("E@x.com", "ÉMILE Z");
                            ("e@x.com", "émile z")] /\ v = lower n) /\
    Dict.len authors <=
      List.length [("e@x.com", "Émile Z"); ("E@x.com", "ÉMILE Z");
                   ("e@x.com", "émile z")].
Proof.
  apply (proj1 find_recent_contributors_entries
           (repository_of "o/r"
              (listing_of [("e@x.com", "Émile Z"); ("E@x.com", "ÉMILE Z");
                           ("e@x.com", "émile z")]))
           noon_past 3
           [("e@x.com", "Émile Z"); ("E@x.com", "ÉMILE Z");
            ("e@x.com", "émile z")]);
    reflexivity.
Defined.

(** ** Counting the duplicate warnings *)

Lemma duplicate_warnings_collect_cons p pairs authors :
  duplicate_warnings (fst (collect (map commit_of (p :: pairs)) authors)) =
  (if items_contains (fst p, lower (snd p)) authors then 1 else 0) +
  duplicate_warnings (fst (collect (map commit_of pairs) (store authors p))).
Proof.
  destruct p as [e n]. cbn [map].
  rewrite (collect_cons_ok _ _ _ n e) by reflexivity.
  unfold duplicate_warnings. cbn [fst snd]. cbn [filter is_duplicate_warning].
  rewrite filter_app, length_app.
  destruct (items_contains (e, lower n) authors); reflexivity.
Qed.

Lemma len_store authors p :
  Dict.len (store authors p) =
  if Dict.mem (fst p) authors then Dict.len authors else S (Dict.len authors).
Proof. rewrite store_assign. apply len_set. Qed.

Lemma duplicate_warnings_le pairs : forall authors,
  duplicate_warnings (fst (collect (map commit_of pairs) authors)) +
  Dict.len (fold_left store pairs authors) <=
  Dict.len authors + List.length pairs.
Proof.
  induction pairs as [| p pairs IH]; intros authors.
  - unfold duplicate_warnings. simpl. lia.
  - rewrite duplicate_warnings_collect_cons. cbn [fold_left List.length].
    specialize (IH (store authors p)).
    destruct (items_contains (fst p, lower (snd p)) authors) eqn:E.
    + unfold store in *. rewrite E in *. cbn [negb] in *. lia.
    + rewrite len_store in IH. destruct (Dict.mem (fst p) authors); lia.
Qed.

Lemma duplicate_warnings_eq pairs : forall authors,
  (forall p q, In p pairs -> In q pairs -> fst p = fst q ->
               lower (snd p) = lower (snd q)) ->
  (forall p v, In p pairs -> Dict.get (fst p) authors = Some v ->
               v = lower (snd p)) ->
  duplicate_warnings (fst (collect (map commit_of pairs) authors)) +
  Dict.len (fold_left store pairs authors) =
  Dict.len authors + List.length pairs.
Proof.
  induction pairs as [| p pairs IH]; intros authors Hpairs Hacc.
  - unfold duplicate_warnings. simpl. lia.
  - rewrite duplicate_warnings_collect_cons. cbn [fold_left List.length].
    assert (Hrest : forall p0 q, In p0 pairs -> In q pairs ->
                      fst p0 = fst q -> lower (snd p0) = lower (snd q))
      by (intros p0 q H0 Hq; apply Hpairs; now right).
    destruct (items_contains (fst p, lower (snd p)) authors) eqn:E.
    + assert (Es : store authors p = authors)
        by (unfold store; now rewrite E).
      rewrite Es.
      assert (E' := IH authors Hrest
                      (fun q v Hq => Hacc q v (or_intror Hq))).
      lia.
    + assert (G : Dict.get (fst p) authors = None).
      { destruct (Dict.get (fst p) authors) as [v |] eqn:G; auto.
        assert (v = lower (snd p)) by (apply (Hacc p v); [now left | exact G]).
        subst v. apply (items_contains_get (fst p, lower (snd p))) in G.
        congruence. }
      assert (E' : duplicate_warnings
                     (fst (collect (map commit_of pairs) (store authors p))) +
                   Dict.len (fold_left store pairs (store authors p)) =
                   Dict.len (store authors p) + List.length pairs).
      2: { rewrite len_store in E'. unfold Dict.mem in E'.
           rewrite G in E'. lia. }
      apply (IH (store authors p) Hrest).
      * intros q v Hq. rewrite store_assign.
        destruct (string_dec (fst p) (fst q)) as [Eq | Hne].
        -- rewrite <- Eq, get_set_same. intros Hv. inversion Hv; subst.
           apply Hpairs; [now left | now right | exact Eq].
        -- rewrite get_set_other by assumption. apply Hacc. now right.
Qed.

(** X8. A commit either logs a duplicate warning or stores an entry,
    so the warnings and the entries of the mapping together never
    outnumber the commits; and when every email always comes with the
    same name up to letter case, their numbers add up to exactly the
    number of commits: one warning for each commit beyond the first of
    its email.  Two commits of one email, named É and é, log one
    duplicate warning. *)
Theorem duplicate_warnings_count :
  (forall repository since total pairs,
     totalCount (get_commits repository since) = Ok total ->
     elements (get_commits repository since) = map commit_of pairs ->
     exists authors,
       snd (find_recent_contributors repository since) = Ok authors /\
       duplicate_warnings (fst (find_recent_contributors repository since)) +
         Dict.len authors <= List.length pairs /\
       ((forall p q, In p pairs -> In q pairs -> fst p = fst q ->
                     lower (snd p) = lower (snd q)) ->
        duplicate_warnings (fst (find_recent_contributors repository since)) +
          Dict.len authors = List.length pairs)) /\
  (forall name since,
     duplicate_warnings
       (fst (find_recent_contributors
               (repository_of name
                  (listing_of [("e@x.com", "É"); ("e@x.com", "é")])) since)) =
     1).
Proof.
  split; [| reflexivity].
  intros repository since total pairs Ht He.
  exists (fold_left store pairs Dict.empty).
  split; [eapply find_recent_contributors_pairs; eauto |].
  rewrite (find_recent_contributors_probed _ _ _ Ht), He. cbn [fst].
  change (duplicate_warnings
            (Log INFO (AnalyzingCommits (full_name repository))
               :: Log DEBUG (FoundTotalCommits total)
               :: fst (collect (map commit_of pairs) Dict.empty)))
    with (duplicate_warnings (fst (collect (map commit_of pairs) Dict.empty))).
  split.
  - apply (duplicate_warnings_le pairs Dict.empty).
  - intros H. apply (duplicate_warnings_eq pairs Dict.empty H).
    intros p v _ G. discriminate.
Qed.

Lemma duplicate_warnings_count_witness :
  exists authors,
    snd (find_recent_contributors
           (repository_of "o/r"
              (listing_of [("e@x.com", "É"); ("e@x.com", "é")]))
           noon_past) = Ok authors /\
    duplicate_warnings
      (fst (find_recent_contributors
              (repository_of "o/r"
                 (listing_of [("e@x.com", "É"); ("e@x.com", "é")]))
              noon_past)) + Dict.len authors <=
      List.length [("e@x.com", "É"); ("e@x.com", "é")] /\
    ((forall p q,
        In p [("e@x.com", "É"); ("e@x.com", "é")] ->
        In q [("e@x.com", "É"); ("e@x.com", "é")] ->
        fst p = fst q -> lower (snd p) = lower (snd q)) ->
     duplicate_warnings
       (fst (find_recent_contributors
               (repository_of "o/r"
                  (listing_of [("e@x.com", "É"); ("e@x.com", "é")]))
               noon_past)) + Dict.len authors =
       List.length [("e@x.com", "É"); ("e@x.com", "é")]).
Proof.
  apply (proj1 duplicate_warnings_count
           (repository_of "o/r"
              (listing_of [("e@x.com", "É"); ("e@x.com", "é")]))
           noon_past 2 [("e@x.com", "É"); ("e@x.com", "é")]);
    reflexivity.
Defined.

(** ** Splitting the repository list *)

Lemma split_nonempty sep s : split sep s <> [].
Proof.
  destruct s as [| c s]; simpl; [discriminate |].
  destruct (split sep s); [discriminate |].
  destruct (Ascii.eqb c sep); discriminate.
Qed.

Lemma join_cons sep field field' rest :
  join sep (field :: field' :: rest) =
  (field ++ String sep (join sep (field' :: rest)))%string.
Proof. reflexivity. Qed.

Lemma join_split sep s : join sep (split sep s) = s.
Proof.
  induction s as [| c s IH]; [reflexivity |].
  cbn [split]. destruct (split sep s) as [| field fields] eqn:E.
  - now elim (split_nonempty sep s).
  - destruct (Ascii.eqb_spec c sep) as [-> | Hne].
    + rewrite join_cons, IH. reflexivity.
    + destruct fields as [| field' fields].
      * cbn in *. now rewrite IH.
      * rewrite join_cons. rewrite join_cons in IH.
        cbn [String.append]. now rewrite IH.
Qed.

Lemma length_split sep s :
  List.length (split sep s) = S (count_char sep s).
Proof.
  induction s as [| c s IH]; [reflexivity |].
  cbn [split count_char]. destruct (split sep s) as [| field fields] eqn:E.
  - now elim (split_nonempty sep s).
  - destruct (Ascii.eqb c sep); cbn [List.length] in *; lia.
Qed.

Lemma split_fields_free sep s :
  forall field, In field (split sep s) -> count_char sep field = 0.
Proof.
  induction s as [| c s IH]; intros field.
  - intros [<- | []]. reflexivity.
  - cbn [split]. destruct (split sep s) as [| f fields] eqn:E.
    + now elim (split_nonempty sep s).
    + destruct (Ascii.eqb c sep) eqn:Ec.
      * intros [<- | HI]; [reflexivity | now apply IH].
      * intros [<- | HI].
        -- cbn [count_char]. rewrite Ec. apply IH. now left.
        -- apply IH. now right.
Qed.

Lemma split_free sep field :
  count_char sep field = 0 -> split sep field = [field].
Proof.
  induction field as [| c s IH]; [reflexivity |].
  cbn [count_char split]. destruct (Ascii.eqb c sep); [discriminate |].
  intros H. now rewrite IH.
Qed.

Lemma split_app_sep sep s1 : forall s2,
  split sep (s1 ++ String sep s2) = split sep s1 ++ split sep s2.
Proof.
  induction s1 as [| c s1 IH]; intros s2.
  - cbn [String.append split app].
    destruct (split sep s2) as [| f fs] eqn:E.
    + now elim (split_nonempty sep s2).
    + now rewrite Ascii.eqb_refl.
  - cbn [String.append split]. rewrite IH.
    destruct (split sep s1) as [| f fs] eqn:E.
    + now elim (split_nonempty sep s1).
    + cbn [app]. destruct (Ascii.eqb c sep); reflexivity.
Qed.

(** X9. Splitting the repository list loses nothing and makes no
    name up: joining the names with the separator gives the string
    back, there is one name more than there are separators (so even
    the empty string gives one name, the empty one), and no name
    holds a separator. *)
Theorem split_fields :
  forall sep s,
    join sep (split sep s) = s /\
    List.length (split sep s) = S (count_char sep s) /\
    forall field, In field (split sep s) -> count_char sep field = 0.
Proof.
  intros sep s. split; [apply join_split |].
  split; [apply length_split | apply split_fields_free].
Qed.

(** X10. Names that hold no separator, joined by it, split into the
    same names again, in the same order. *)
Theorem split_join :
  forall sep fields,
    fields <> [] ->
    (forall field, In field fields -> count_char sep field = 0) ->
    split sep (join sep fields) = fields.
Proof.
  intros sep fields. induction fields as [| f fields IH]; intros Hne Hfree.
  - now elim Hne.
  - destruct fields as [| f' fields].
    + cbn [join]. apply split_free. apply Hfree. now left.
    + rewrite join_cons, split_app_sep.
      rewrite split_free by (apply Hfree; now left).
      rewrite IH; [reflexivity | discriminate |].
      intros field HI. apply Hfree. now right.
Qed.

Lemma split_join_witness :
  split "," (join "," ["r1"; ""; "r2"]) = ["r1"; ""; "r2"].
Proof.
  apply (split_join "," ["r1"; ""; "r2"]).
  - discriminate.
  - intros field [<- | [<- | [<- | []]]]; reflexivity.
Defined.

(** ** A repository named twice *)

Lemma fold_absorb_count_other r post : forall st,
  ~ In r (map fst post) ->
  Dict.get r (fst (fold_left absorb post st)) = Dict.get r (fst st).
Proof.
  induction post as [| [r' d'] post IH]; intros st H; [reflexivity |].
  simpl in *. rewrite IH by tauto.
  unfold absorb. cbn [fst snd]. apply get_set_other. tauto.
Qed.

Lemma fold_absorb_keys done : forall st e,
  In e (Dict.keys (snd (fold_left absorb done st))) <->
  In e (Dict.keys (snd st)) \/
  exists r d, In (r, d) done /\ In e (Dict.keys d).
Proof.
  induction done as [| [r d] done IH]; intros st e.
  - simpl. split; [tauto | intros [H | (r & d & [] & _)]; exact H].
  - cbn [fold_left]. rewrite IH. unfold absorb. cbn [fst snd].
    rewrite In_keys_update. split.
    + intros [[H | H] | (r0 & d0 & HI & He)]; auto.
      * right. exists r, d. split; [now left | exact H].
      * right. exists r0, d0. split; [now right | exact He].
    + intros [H | (r0 & d0 & [E | HI] & He)]; auto.
      * inversion E; subst. auto.
      * right. eauto.
Qed.

(** X11. Whatever mappings the repositories gave: when a repository is
    collected once more at the end, with the same mapping as the last
    time it was collected, the [repositories] map and
    [num_unique_contributors] of the report stay as they were. *)
Theorem repository_named_twice :
  forall pre repo d post,
    ~ In repo (map fst post) ->
    repositories
      (report_of (aggregate ((pre ++ (repo, d) :: post) ++ [(repo, d)]))) =
    repositories (report_of (aggregate (pre ++ (repo, d) :: post))) /\
    num_unique_contributors
      (report_of (aggregate ((pre ++ (repo, d) :: post) ++ [(repo, d)]))) =
    num_unique_contributors
      (report_of (aggregate (pre ++ (repo, d) :: post))).
Proof.
  intros pre repo d post Hpost.
  set (done := pre ++ (repo, d) :: post).
  destruct (report_contributors _ (aggregate_NoDup done))
    as (_ & _ & _ & _ & _ & Hnum).
  destruct (report_contributors _ (aggregate_NoDup (done ++ [(repo, d)])))
    as (_ & _ & _ & _ & _ & Hnum').
  rewrite Hnum, Hnum'.
  change (repositories (report_of (aggregate (done ++ [(repo, d)]))))
    with (fst (aggregate (done ++ [(repo, d)]))).
  change (repositories (report_of (aggregate done)))
    with (fst (aggregate done)).
  rewrite aggregate_snoc. unfold absorb. cbn [fst snd]. split.
  - apply set_same_noop. unfold done, aggregate.
    rewrite fold_left_app. cbn [fold_left].
    rewrite fold_absorb_count_other by assumption.
    unfold absorb. cbn [fst snd]. apply get_set_same.
  - apply len_update_subset. intros k Hk.
    unfold aggregate. apply fold_absorb_keys. right.
    exists repo, d. split; [| exact Hk].
    unfold done. apply in_or_app. right. now left.
Qed.

Lemma repository_named_twice_witness :
  repositories
    (report_of (aggregate (([("r1", [("a@x.com", "bob")])] ++
                            ("r2", [("c@y.com", "carol")]) ::
                            [("r1", [])]) ++
                           [("r2", [("c@y.com", "carol")])]))) =
  repositories
    (report_of (aggregate ([("r1", [("a@x.com", "bob")])] ++
                           ("r2", [("c@y.com", "carol")]) ::
                           [("r1", [])]))) /\
  num_unique_contributors
    (report_of (aggregate (([("r1", [("a@x.com", "bob")])] ++
                            ("r2", [("c@y.com", "carol")]) ::
                            [("r1", [])]) ++
                           [("r2", [("c@y.com", "carol")])]))) =
  num_unique_contributors
    (report_of (aggregate ([("r1", [("a@x.com", "bob")])] ++
                           ("r2", [("c@y.com", "carol")]) ::
                           [("r1", [])]))).
Proof.
  apply (repository_named_twice
           [("r1", [("a@x.com", "bob")])] "r2" [("c@y.com", "carol")]
           [("r1", [])]).
  simpl. intros [E | []]. discriminate.
Defined.
